(** * Counting and maximising the multiples of 5: three reducers

    A shallow embedding of [main.cpp]: the linear reducer, the reducer whose
    workers merge under a mutex, the reducer whose workers merge with an
    atomic fetch-add and a compare-and-swap retry loop, and the lines the
    driver prints.

    - An [int] is a [Z] in [INT_MIN, INT_MAX]. Signed overflow, division by
      zero and an out-of-range subscript are undefined in C++: the embedding
      returns [None] there. Narrowing a [size_t] to [int] and arithmetic on
      [atomic<int>] wrap around; the wrap is written out ([to_int]).
    - A dataset is a [list Z].
    - The workers of the mutex reducer touch shared memory only inside the
      critical section, so a run is the order in which they take the lock.
    - The workers of the lock-free reducer are a transition system: a step
      is one atomic access by one worker, or its test that leaves the retry
      loop; a run is a list of such steps. The accesses are
      [memory_order_relaxed]: a load may return an older value of
      [atomicMax], and [compare_exchange_weak] may fail spuriously; both
      are choices of the run.
    - The driver's report is a list of strings; the elapsed time, a
      [double], enters it as the decimal it is printed as. *)

From stdpp Require Import base numbers option list strings.
From Stdlib Require Import Ascii DecimalString DecimalZ Sorted.

Open Scope Z_scope.

(** ** [int] and [size_t] *)

Definition INT_MIN : Z := -2147483648.
Definition INT_MAX : Z := 2147483647.

Definition is_int (z : Z) : Prop := INT_MIN ≤ z ≤ INT_MAX.

Definition in_int (z : Z) : bool := (INT_MIN <=? z) && (z <=? INT_MAX).

(** Conversion of an integer value to [int] (two's complement). *)
Definition to_int (z : Z) : Z := (z + 2147483648) `mod` 4294967296 - 2147483648.

(** Conversion of an integer value to the 64-bit [size_t]. *)
Definition to_size_t (z : Z) : Z := z `mod` 18446744073709551616.

(** The result of a signed [int] operation: undefined when it overflows. *)
Definition checked (z : Z) : option Z := if in_int z then Some z else None.

(** ** The scan shared by the three reducers *)

(** The loop body: [if (value % 5 == 0) { count++; if (value > maxValue)
    maxValue = value; }]. [%] truncates toward zero, as [Z.rem]. *)
Definition visit (value : Z) (acc : Z * Z) : option (Z * Z) :=
  let '(count, maxValue) := acc in
  if Z.rem value 5 =? 0 then
    count' ← checked (count + 1);
    Some (count', if value >? maxValue then value else maxValue)
  else Some (count, maxValue).

(** [for (int value : data)] *)
Fixpoint range_for (data : list Z) (acc : Z * Z) : option (Z * Z) :=
  match data with
  | [] => Some acc
  | value :: rest => acc' ← visit value acc; range_for rest acc'
  end.

Definition linearExecution (data : list Z) : option (Z * Z) :=
  range_for data (0, INT_MIN).

(** [data[i]] for an [int i]: the subscript converts to [size_t], so a
    negative [i] is out of range like one past the end. *)
Definition subscript (data : list Z) (i : Z) : option Z :=
  if i <? 0 then None else data !! Z.to_nat i.

(** [for (int i = start; i < end; ++i)], [n] iterations left. [++i] cannot
    overflow: it runs only while [i < end]. *)
Fixpoint index_for (n : nat) (i : Z) (data : list Z) (acc : Z * Z)
  : option (Z * Z) :=
  match n with
  | O => Some acc
  | S n' =>
      value ← subscript data i;
      acc' ← visit value acc;
      index_for n' (i + 1) data acc'
  end.

(** The number of iterations of the section loop, each of which reads and
    compares one element. *)
Definition iterations (start end_ : Z) : nat := Z.to_nat (end_ - start).

(** The local phase of a worker: its own count and maximum. *)
Definition scan_section (start end_ : Z) (data : list Z) : option (Z * Z) :=
  index_for (iterations start end_) start data (0, INT_MIN).

(** The multiples of 5 of a dataset, their number and their maximum. *)
Definition multiples (data : list Z) : list Z :=
  filter (λ v, Z.rem v 5 = 0) data.

Definition count_of (data : list Z) : Z := Z.of_nat (length (multiples data)).

Definition max_of (data : list Z) : Z := foldr Z.max INT_MIN (multiples data).

(** ** Partitioning *)

(** [int chunkSize = data.size() / numThreads]: the division is done in
    [size_t], the quotient narrowed to [int]. *)
Definition chunk_size (size numThreads : Z) : option Z :=
  let divisor := to_size_t numThreads in
  if divisor =? 0 then None else Some (to_int (size / divisor)).

(** [start] and [end] of worker [t]. The conditional has type [size_t], so
    [start + chunkSize] goes through [size_t] on its way to [end]. *)
Definition section_bounds (size numThreads chunkSize t : Z) : option (Z * Z) :=
  start ← checked (t * chunkSize);
  end_ ← (if t =? numThreads - 1 then Some (to_int size)
          else s ← checked (start + chunkSize); Some (to_int (to_size_t s)));
  Some (start, end_).

(** [for (int t = 0; t < numThreads; ++t)] *)
Definition thread_ids (numThreads : Z) : list Z :=
  Z.of_nat <$> seq 0 (Z.to_nat numThreads).

Definition partitions (size numThreads : Z) : option (list (Z * Z)) :=
  chunkSize ← chunk_size size numThreads;
  mapM (section_bounds size numThreads chunkSize) (thread_ids numThreads).

(** The partition of [0, size) the code aims at, without machine limits:
    worker [t] gets [t * c, t * c + c) with [c = size / numThreads], the
    last worker [(numThreads - 1) * c, size). *)
Definition chunk_bounds (size numThreads t : Z) : Z * Z :=
  let c := size / numThreads in
  (t * c, if t =? numThreads - 1 then size else t * c + c).

(** The elements of a section. *)
Definition slice (data : list Z) (sec : Z * Z) : list Z :=
  take (iterations sec.1 sec.2) (drop (Z.to_nat sec.1) data).

(** A section that lies within the dataset. *)
Definition in_bounds (data : list Z) (sec : Z * Z) : Prop :=
  0 ≤ sec.1 ∧ sec.1 ≤ sec.2 ∧ sec.2 ≤ Z.of_nat (length data).

(** What the workers find in their sections, and what merging makes of it. *)
Definition local_results (data : list Z) (secs : list (Z * Z)) : list (Z * Z) :=
  (λ sec, (count_of (slice data sec), max_of (slice data sec))) <$> secs.

(** The local result of worker [k], [(0, INT_MIN)] when there is none. *)
Definition local_of (data : list Z) (secs : list (Z * Z)) (k : nat) : Z * Z :=
  default (0, INT_MIN) (local_results data secs !! k).

Definition total_count (locals : list (Z * Z)) : Z :=
  foldr (λ r s, r.1 + s) 0 locals.

Definition total_max (locals : list (Z * Z)) : Z :=
  foldr (λ r s, Z.max r.2 s) INT_MIN locals.

(** ** The mutex reducer *)

(** The critical section of [processSectionWithMutex]; [localCount] and
    [localMax] are the source's names for the shared accumulators. *)
Definition merge (shared local : Z * Z) : option (Z * Z) :=
  let '(localCount, localMax) := shared in
  let '(count, maxValue) := local in
  localCount' ← checked (localCount + count);
  Some (localCount', if maxValue >? localMax then maxValue else localMax).

Definition processSectionWithMutex (start end_ : Z) (data : list Z)
    (shared : Z * Z) : option (Z * Z) :=
  local ← scan_section start end_ data;
  merge shared local.

(** The workers enter the critical section in the order [order] (worker
    numbers, each once). *)
Fixpoint critical_sections (order : list nat) (secs : list (Z * Z))
    (data : list Z) (shared : Z * Z) : option (Z * Z) :=
  match order with
  | [] => Some shared
  | k :: rest =>
      '(start, end_) ← secs !! k;
      shared' ← processSectionWithMutex start end_ data shared;
      critical_sections rest secs data shared'
  end.

Definition parallelWithMutex (data : list Z) (numThreads : Z)
    (order : list nat) : option (Z * Z) :=
  secs ← partitions (Z.of_nat (length data)) numThreads;
  critical_sections order secs data (0, INT_MIN).

(** One worker's turn at the lock, by its number. *)
Definition enter (secs : list (Z * Z)) (data : list Z) (k : nat)
    (acc : Z * Z) : option (Z * Z) :=
  secs !! k ≫= λ sec, processSectionWithMutex sec.1 sec.2 data acc.

(** A lock order of [numThreads] workers: every worker takes the lock once. *)
Definition lock_order (numThreads : Z) (order : list nat) : Prop :=
  order ≡ₚ seq 0 (Z.to_nat numThreads).

(** ** The lock-free reducer *)

(** Where a worker of [processSectionWithCAS] stands once its local scan is
    done: before the [fetch_add], before a load of [atomicMax] (lines 85
    and 87 alike; [seen] is the newest value of [atomicMax] the worker has
    read so far), before the loop condition, or returned. *)
Inductive pc : Type :=
  | AtFetchAdd
  | AtLoad (seen : Z)
  | AtWhile (currentMax : Z)
  | Finished.

Record worker : Type := Worker { localCount : Z; localMax : Z; at_pc : pc }.

(** The two atomics. [atomicMax] is the value written last, [overwritten]
    the values written before it, newest first. *)
Record atomics : Type :=
  Atomics { atomicCount : Z; atomicMax : Z; overwritten : list Z }.

Record state : Type := State { shared : atomics; workers : list worker }.

Definition goto (w : worker) (p : pc) : worker :=
  Worker (localCount w) (localMax w) p.

(** A [memory_order_relaxed] load need not return the value written last:
    it returns some value written so far, none older than what the worker
    has read already. (Every write of [atomicMax] writes a greater value,
    so here older means less.) *)
Definition readable (m : atomics) (seen v : Z) : bool :=
  bool_decide (v ∈ atomicMax m :: overwritten m ∧ seen ≤ v).

(** The steps of worker [k], its atomic accesses and the test that leaves
    the loop:
    - [FetchAdd k]: [atomicCount.fetch_add(localCount)];
    - [Load k v]: [currentMax = atomicMax.load()] returns [v];
    - [Return k]: [localMax > currentMax] is false, the loop is left
      without an exchange;
    - [Exchange k]: [compare_exchange_weak] succeeds;
    - [Fail k v]: [compare_exchange_weak] fails, having read [v], which
      is not [currentMax];
    - [Spurious k]: [compare_exchange_weak] fails although it read
      [currentMax], as the weak form may. *)
Inductive event : Type :=
  | FetchAdd (k : nat)
  | Load (k : nat) (v : Z)
  | Return (k : nat)
  | Exchange (k : nat)
  | Fail (k : nat) (v : Z)
  | Spurious (k : nat).

Definition actor (e : event) : nat :=
  match e with
  | FetchAdd k | Load k _ | Return k | Exchange k | Fail k _ | Spurious k => k
  end.

(** [processSectionWithCAS] after the local scan, one step at a time: the
    step [e] by worker [w], [None] when [w] is not at it.
    - [fetch_add] wraps around, as arithmetic on [atomic<int>] does; the
      worker has seen no value of [atomicMax] but the initial one.
    - A successful exchange is a read-modify-write: it has read the value
      written last, and writes [localMax] after it.
    - A failed exchange leaves what it read in [currentMax]; the loop body
      then loads again. *)
Definition processSectionWithCAS (e : event) (w : worker) (m : atomics)
  : option (worker * atomics) :=
  match e, at_pc w with
  | FetchAdd _, AtFetchAdd =>
      Some (goto w (AtLoad INT_MIN),
            Atomics (to_int (atomicCount m + localCount w))
                    (atomicMax m) (overwritten m))
  | Load _ v, AtLoad seen =>
      if readable m seen v then Some (goto w (AtWhile v), m) else None
  | Return _, AtWhile currentMax =>
      if localMax w >? currentMax then None else Some (goto w Finished, m)
  | Exchange _, AtWhile currentMax =>
      if (localMax w >? currentMax) && (atomicMax m =? currentMax)
      then Some (goto w Finished,
                 Atomics (atomicCount m) (localMax w)
                         (atomicMax m :: overwritten m))
      else None
  | Fail _ v, AtWhile currentMax =>
      if (localMax w >? currentMax) && negb (v =? currentMax)
         && readable m currentMax v
      then Some (goto w (AtLoad v), m)
      else None
  | Spurious _, AtWhile currentMax =>
      if localMax w >? currentMax then Some (goto w (AtLoad currentMax), m)
      else None
  | _, _ => None
  end.

(** A step of the reducer: the access [e] by its worker. *)
Definition step (st : state) (e : event) : option state :=
  w ← workers st !! actor e;
  '(w', m') ← processSectionWithCAS e w (shared st);
  Some (State m' (<[actor e := w']> (workers st))).

Fixpoint run (sched : list event) (st : state) : option state :=
  match sched with
  | [] => Some st
  | e :: rest => st' ← step st e; run rest st'
  end.

Definition finished (w : worker) : bool :=
  match at_pc w with Finished => true | _ => false end.

(** All workers have returned: the joins of [parallelWithCAS] are over. *)
Definition joined (st : state) : bool := forallb finished (workers st).

(** [atomic<int> atomicCount(0); atomic<int> atomicMax(INT_MIN);] *)
Definition initial_state (locals : list (Z * Z)) : state :=
  State (Atomics 0 INT_MIN []) ((λ r, Worker r.1 r.2 AtFetchAdd) <$> locals).

(** The local results of the workers, one per section. *)
Definition scan_sections (data : list Z) (secs : list (Z * Z))
  : option (list (Z * Z)) :=
  mapM (λ sec, scan_section sec.1 sec.2 data) secs.

(** The workers of [parallelWithCAS] as they are spawned, their local scans
    done (a scan reads only the dataset, which nothing writes). *)
Definition spawnCAS (data : list Z) (numThreads : Z) : option state :=
  secs ← partitions (Z.of_nat (length data)) numThreads;
  locals ← scan_sections data secs;
  Some (initial_state locals).

(** The result of [parallelWithCAS] along the run [sched]: what the final
    loads return once the workers are joined. [None] when the program is
    undefined, when [sched] is not a run of it, or when a worker has not
    returned at its end. *)
Definition parallelWithCAS (data : list Z) (numThreads : Z)
    (sched : list event) : option (Z * Z) :=
  st0 ← spawnCAS data numThreads;
  st ← run sched st0;
  if joined st then Some (atomicCount (shared st), atomicMax (shared st))
  else None.

(** What a step of worker [w] does, case by case. *)
Inductive access (w : worker) (m : atomics)
  : event → worker → atomics → Prop :=
  | access_add k :
      at_pc w = AtFetchAdd →
      access w m (FetchAdd k) (goto w (AtLoad INT_MIN))
             (Atomics (to_int (atomicCount m + localCount w))
                      (atomicMax m) (overwritten m))
  | access_load k seen v :
      at_pc w = AtLoad seen → v ∈ atomicMax m :: overwritten m → seen ≤ v →
      access w m (Load k v) (goto w (AtWhile v)) m
  | access_return k currentMax :
      at_pc w = AtWhile currentMax → localMax w ≤ currentMax →
      access w m (Return k) (goto w Finished) m
  | access_exchange k :
      at_pc w = AtWhile (atomicMax m) → atomicMax m < localMax w →
      access w m (Exchange k) (goto w Finished)
             (Atomics (atomicCount m) (localMax w)
                      (atomicMax m :: overwritten m))
  | access_fail k currentMax v :
      at_pc w = AtWhile currentMax → currentMax < localMax w →
      v ∈ atomicMax m :: overwritten m → currentMax < v →
      access w m (Fail k v) (goto w (AtLoad v)) m
  | access_spurious k currentMax :
      at_pc w = AtWhile currentMax → currentMax < localMax w →
      access w m (Spurious k) (goto w (AtLoad currentMax)) m.

(** The number of spurious failures of a run. *)
Definition is_spurious (e : event) : bool :=
  match e with Spurious _ => true | _ => false end.

Definition spurious_failures (sched : list event) : Z :=
  Z.of_nat (length (filter (λ e, is_spurious e = true) sched)).

(** The measure of the retry loops. [unseen m seen] counts the values of
    [atomicMax] a worker that has read [seen] may still come to read;
    [weight n m w] bounds what worker [w], one of [n], still has to do. *)
Definition above (seen : Z) (written : list Z) : Z :=
  Z.of_nat (length (filter (λ h, seen < h) written)).

Definition unseen (m : atomics) (seen : Z) : Z :=
  above seen (atomicMax m :: overwritten m).

Definition weight (n : Z) (m : atomics) (w : worker) : Z :=
  match at_pc w with
  | AtFetchAdd => 3 + 2 * unseen m INT_MIN + 2 * n
  | AtLoad seen => 2 + 2 * unseen m seen + 2 * n
  | AtWhile currentMax => 1 + 2 * unseen m currentMax + 2 * n
  | Finished => 0
  end.

Definition sum_over (f : worker → Z) (ws : list worker) : Z :=
  foldr (λ w s, f w + s) 0 ws.

Definition potential (st : state) : Z :=
  sum_over (weight (Z.of_nat (length (workers st))) (shared st)) (workers st).

(** The local results the workers of a state carry. *)
Definition results_of (ws : list worker) : list (Z * Z) :=
  (λ w, (localCount w, localMax w)) <$> ws.

(** What worker [w] has added to the shared counter so far. *)
Definition added (w : worker) : Z :=
  match at_pc w with AtFetchAdd => 0 | _ => localCount w end.

(** The newest value of [atomicMax] worker [w] has read. *)
Definition seen_by (w : worker) : option Z :=
  match at_pc w with
  | AtLoad seen => Some seen
  | AtWhile currentMax => Some currentMax
  | _ => None
  end.

(** The invariant of the runs from [initial_state locals]. *)
Record invariant (locals : list (Z * Z)) (st : state) : Prop := Invariant {
  inv_results : results_of (workers st) = locals;
  inv_count : atomicCount (shared st) = to_int (sum_over added (workers st));
  inv_lower : INT_MIN ≤ atomicMax (shared st);
  inv_upper : atomicMax (shared st) ≤ total_max locals;
  inv_newest : ∀ h, h ∈ overwritten (shared st) → h ≤ atomicMax (shared st);
  inv_seen : ∀ k w v, workers st !! k = Some w → seen_by w = Some v →
                      v ≤ atomicMax (shared st);
  inv_finished : ∀ k w, workers st !! k = Some w → finished w = true →
                        localMax w ≤ atomicMax (shared st)
}.

(** The values [atomicMax] has held, newest first: its modification order
    read backwards. *)
Definition history (m : atomics) : list Z := atomicMax m :: overwritten m.

(** The number of workers that have returned. *)
Definition returned (ws : list worker) : Z :=
  sum_over (λ w, if finished w then 1 else 0) ws.

(** What the runs from [initial_state locals] keep true of the writes of
    [atomicMax]. *)
Record writes_invariant (locals : list (Z * Z)) (st : state) : Prop :=
  WritesInvariant {
    wr_sorted : StronglySorted (λ newer older, older < newer)
                               (history (shared st));
    wr_first : last (history (shared st)) = Some INT_MIN;
    wr_origin : ∀ h, h ∈ overwritten (shared st) ∨ h = atomicMax (shared st) →
                     h = INT_MIN ∨ ∃ k r, locals !! k = Some r ∧ r.2 = h;
    wr_count : Z.of_nat (length (overwritten (shared st)))
               ≤ returned (workers st)
  }.

(** ** The report of the driver *)

Definition tab_char : ascii := ascii_of_N 9.
Definition tab : string := String tab_char "".
Definition endl : string := String (ascii_of_N 10) "".

(** [cout << n] for an [int n]. *)
Definition show_int (z : Z) : string := NilEmpty.string_of_int (Z.to_int z).

(** The elapsed time as [fixed << setprecision(6)] prints it: its sign and
    the number of millionths of a second it is rounded to. *)
Record seconds : Type := Seconds { negative : bool; micros : N }.

Definition digit (d : N) : ascii := ascii_of_N (48 + d `mod` 10).

Definition show_fixed6 (elapsed : seconds) : string :=
  (if negative elapsed then "-" else "") +:+
  NilEmpty.string_of_uint (N.to_uint (micros elapsed / 1000000)) +:+
  "." +:+
  String (digit (micros elapsed / 100000))
    (String (digit (micros elapsed / 10000))
       (String (digit (micros elapsed / 1000))
          (String (digit (micros elapsed / 100))
             (String (digit (micros elapsed / 10))
                (String (digit (micros elapsed)) ""))))).

(** [cout << matrixSize << "\t\t" << threads << "\t" << mode << "\t" << fixed
    << setprecision(6) << elapsed << "\t" << count << "\t" << maxValue <<
    endl]; for the linear run [threads] is ["-"]. *)
Definition data_line (matrixSize : Z) (threads mode : string)
    (elapsed : seconds) (result : Z * Z) : string :=
  (show_int matrixSize +:+ tab +:+ tab +:+ threads +:+ tab +:+ mode +:+ tab +:+
   show_fixed6 elapsed +:+ tab +:+ show_int result.1 +:+ tab +:+
   show_int result.2) +:+ endl.

Definition threadCounts : list Z := [8; 16; 32; 64; 128; 256].

(** The data lines of one input size: the linear run, then the mutex runs
    and the runs with CAS, one per thread count. [linear], [mutex] and [cas]
    give the time and the result of each run. *)
Definition size_report (matrixSize : Z) (linear : seconds * (Z * Z))
    (mutex cas : Z → seconds * (Z * Z)) : list string :=
  data_line matrixSize "-" "Linear" linear.1 linear.2
  :: ((λ numThreads,
         data_line matrixSize (show_int numThreads) "Mutex"
                   (mutex numThreads).1 (mutex numThreads).2) <$> threadCounts)
  ++ ((λ numThreads,
         data_line matrixSize (show_int numThreads) "CAS"
                   (cas numThreads).1 (cas numThreads).2) <$> threadCounts).

(** The fields of a line: the pieces between its separators. *)
Fixpoint split_on (sep : ascii) (s : string) : list string :=
  match s with
  | EmptyString => [EmptyString]
  | String c rest =>
      if Ascii.eqb c sep then EmptyString :: split_on sep rest
      else match split_on sep rest with
           | [] => [String c EmptyString]
           | field :: fields => String c field :: fields
           end
  end.

Fixpoint all_chars (P : ascii → bool) (s : string) : bool :=
  match s with
  | EmptyString => true
  | String c rest => P c && all_chars P rest
  end.

Definition is_digit (c : ascii) : bool :=
  (48 <=? N_of_ascii c)%N && (N_of_ascii c <=? 57)%N.

Definition other_than (sep c : ascii) : bool := negb (Ascii.eqb c sep).

(** The characters of a printed number: digits, a sign, a point. *)
Definition numeric (c : ascii) : bool :=
  is_digit c || Ascii.eqb c "-" || Ascii.eqb c ".".


(** ** Datasets *)

(** The driver builds every dataset as [vector<int> data(matrixSize)] from an
    [int matrixSize]: the elements are [int]s and so is the length. *)
Definition Dataset (data : list Z) : Prop :=
  Forall is_int data ∧ Z.of_nat (length data) ≤ INT_MAX.

(** ** The driver *)

Definition matrixSizes : list Z := [10000; 1000000; 100000000; 2000000000].

(** [vector<int> data(matrixSize)], then [data[i] = rand() % 1001] for [i]
    from 0 up: [rand i] is what the call number [i] of [rand()] returns. A
    negative [matrixSize] converts to a size no vector can have; the
    constructor throws and there is no dataset. Memory is taken to
    suffice for the sizes that are not negative. *)
Definition generate (matrixSize : Z) (rand : nat → Z) : option (list Z) :=
  if matrixSize <? 0 then None
  else Some ((λ i, Z.rem (rand i) 1001) <$> seq 0 (Z.to_nat matrixSize)).

(** What the source of [main] leaves to the machine, for one input size:
    the values of [rand()], the elapsed times as they are printed, the
    order in which the workers of each mutex run take the lock, and the
    interleaving of the atomic accesses of each run with CAS. *)
Record execution : Type := Execution {
  rand : nat → Z;
  elapsed_linear : seconds;
  elapsed_mutex : Z → seconds;
  elapsed_cas : Z → seconds;
  lock : Z → list nat;
  interleaving : Z → list event
}.

(** One turn of [for (int matrixSize : matrixSizes)]: the lines it prints,
    the empty line of the final [cout << endl] included. *)
Definition size_block (matrixSize : Z) (x : execution) : option (list string) :=
  data ← generate matrixSize (rand x);
  linear ← linearExecution data;
  mutex ← mapM (λ numThreads,
                  result ← parallelWithMutex data numThreads (lock x numThreads);
                  Some (data_line matrixSize (show_int numThreads) "Mutex"
                                  (elapsed_mutex x numThreads) result))
               threadCounts;
  cas ← mapM (λ numThreads,
                result ← parallelWithCAS data numThreads
                                         (interleaving x numThreads);
                Some (data_line matrixSize (show_int numThreads) "CAS"
                                (elapsed_cas x numThreads) result))
             threadCounts;
  Some (data_line matrixSize "-" "Linear" (elapsed_linear x) linear
        :: mutex ++ cas ++ [endl]).

(** [cout << "\nTest Results:\n"] and the line of column names. *)
Definition title : list string := [endl; "Test Results:" +:+ endl].

Definition header_line : string :=
  "Matrix Size" +:+ tab +:+ "Threads" +:+ tab +:+ "Mode" +:+ tab +:+
  "Time (seconds)" +:+ tab +:+ "Count" +:+ tab +:+ "Max Value" +:+ endl.

(** The output of [main], line by line; [x matrixSize] is the execution of
    the turn for [matrixSize]. *)
Definition main (x : Z → execution) : option (list string) :=
  blocks ← mapM (λ matrixSize, size_block matrixSize (x matrixSize)) matrixSizes;
  Some (title ++ header_line :: concat blocks).

(** An execution the program can have: [rand()] returns no negative
    number, every worker of a mutex run takes the lock once, and the
    interleaving of a run with CAS is one in which every worker returns. *)
Definition possible (matrixSize : Z) (x : execution) : Prop :=
  (∀ i, 0 ≤ rand x i) ∧
  (∀ T, T ∈ threadCounts → lock_order T (lock x T)) ∧
  (∀ data T, generate matrixSize (rand x) = Some data → T ∈ threadCounts →
             is_Some (parallelWithCAS data T (interleaving x T))).

(** The run of the lock-free workers in which they go one after another,
    worker [k] first, [currentMax] being what [atomicMax] holds: a
    [fetch_add], a load, and an exchange or the test that leaves the loop
    without one. *)
Fixpoint one_by_one (k : nat) (locals : list (Z * Z)) (currentMax : Z)
  : list event :=
  match locals with
  | [] => []
  | r :: rest =>
      if r.2 >? currentMax
      then FetchAdd k :: Load k currentMax :: Exchange k
           :: one_by_one (S k) rest r.2
      else FetchAdd k :: Load k currentMax :: Return k
           :: one_by_one (S k) rest currentMax
  end.

(** The execution of the turn for [matrixSize] in which [rand()] counts up
    from 0, the clock shows no time passing, and the workers go one after
    another. *)
Definition in_turn (matrixSize : Z) : execution :=
  Execution (λ i, Z.of_nat i)
            (Seconds false 0) (λ _, Seconds false 0) (λ _, Seconds false 0)
            (λ numThreads, seq 0 (Z.to_nat numThreads))
            (λ numThreads,
               one_by_one 0
                 (default []
                    (data ← generate matrixSize (λ i, Z.of_nat i);
                     secs ← partitions (Z.of_nat (length data)) numThreads;
                     scan_sections data secs))
                 INT_MIN).

(** ** Counting the accesses of the lock-free workers *)

(** The atomic accesses among the steps of a run: every step but the test
    [localMax > currentMax] that leaves the loop, which compares two locals
    of the worker. *)
Definition is_atomic (e : event) : bool :=
  match e with Return _ => false | _ => true end.

Definition atomic_accesses (sched : list event) : Z :=
  Z.of_nat (length (filter (λ e, is_atomic e = true) sched)).

(** The successful exchanges of a run. *)
Definition is_exchange (e : event) : bool :=
  match e with Exchange _ => true | _ => false end.

Definition exchanges (sched : list event) : Z :=
  Z.of_nat (length (filter (λ e, is_exchange e = true) sched)).

(** The atomic accesses between a worker and its next test of the loop
    condition: the [fetch_add] and a load, or a load. *)
Definition accesses_left (w : worker) : Z :=
  match at_pc w with
  | AtFetchAdd => 2
  | AtLoad _ => 1
  | AtWhile _ => 0
  | Finished => 0
  end.

(** The exchanges of a run that fail because [atomicMax] no longer holds
    the value expected. *)
Definition is_fail (e : event) : bool :=
  match e with Fail _ _ => true | _ => false end.

Definition failures (sched : list event) : Z :=
  Z.of_nat (length (filter (λ e, is_fail e = true) sched)).

(** The values of [atomicMax] worker [w] has yet to learn of, the workers
    that have not returned, and the measure of the failures still possible. *)
Definition lag (m : atomics) (w : worker) : Z :=
  match at_pc w with
  | AtFetchAdd => unseen m INT_MIN
  | AtLoad seen => unseen m seen
  | AtWhile currentMax => unseen m currentMax
  | Finished => 0
  end.

Definition unfinished (ws : list worker) : Z :=
  sum_over (λ w, if finished w then 0 else 1) ws.

Definition contention (st : state) : Z :=
  2 * sum_over (lag (shared st)) (workers st)
  + unfinished (workers st) * (unfinished (workers st) - 1).

(** ** Reading the report *)

(** Reading a printed [int] back, as a consumer of the report does. *)
Definition read_int (s : string) : option Z :=
  Z.of_int <$> NilEmpty.int_of_string s.

(** * Proofs *)

(** Bounds on [int] values, and small datasets. *)
Ltac int_arith := unfold is_int, INT_MIN, INT_MAX in *; lia.

Ltac small_dataset :=
  split; [repeat (constructor; [int_arith|]); constructor
         |simpl; unfold INT_MAX; lia].

(** ** The fixture of the specification *)

Example linear_fixture : linearExecution [5; 3; 10; 22; 25; 7] = Some (3, 25).
Proof. reflexivity. Qed.

Example mutex_fixture :
  parallelWithMutex [5; 3; 10; 22; 25; 7] 3 [2; 0; 1]%nat = Some (3, 25).
Proof. reflexivity. Qed.

Example cas_fixture :
  parallelWithCAS [5; 3; 10; 22; 25; 7] 3
    [FetchAdd 0; FetchAdd 1; FetchAdd 2; Load 0 INT_MIN; Load 1 INT_MIN;
     Load 2 INT_MIN; Spurious 0; Exchange 2; Fail 1 25; Load 0 INT_MIN;
     Fail 0 25; Load 0 25; Return 0; Load 1 25; Return 1] = Some (3, 25).
Proof. reflexivity. Qed.

Example partitions_fixture : partitions 7 3 = Some [(0, 2); (2, 4); (4, 7)].
Proof. reflexivity. Qed.

(** ** Integers *)

Lemma checked_Some z : is_int z → checked z = Some z.
Proof.
  unfold checked, in_int, is_int. intros [Hlo Hhi].
  apply Z.leb_le in Hlo, Hhi. by rewrite Hlo, Hhi.
Qed.

Lemma checked_inv z z' : checked z = Some z' → z' = z ∧ is_int z.
Proof.
  unfold checked, in_int, is_int. destruct (_ && _) eqn:E; [|done].
  apply andb_true_iff in E as [Hlo Hhi]. apply Z.leb_le in Hlo, Hhi.
  intros [= <-]. done.
Qed.

Lemma to_int_id z : is_int z → to_int z = z.
Proof.
  unfold is_int, INT_MIN, INT_MAX, to_int. intros H.
  rewrite Z.mod_small by lia. lia.
Qed.

Lemma to_int_add_l a b : to_int (to_int a + b) = to_int (a + b).
Proof.
  unfold to_int. f_equal.
  replace (a + 2147483648) with (a + 2147483648 + 0) at 1 by lia.
  replace ((a + 2147483648 + 0) `mod` 4294967296 - 2147483648 + b + 2147483648)
    with ((a + 2147483648 + 0) `mod` 4294967296 + b) by lia.
  rewrite Z.add_0_r, Zplus_mod_idemp_l. f_equal. lia.
Qed.

Lemma to_size_t_id z : 0 ≤ z ≤ INT_MAX → to_size_t z = z.
Proof. unfold INT_MAX, to_size_t. intros H. apply Z.mod_small. lia. Qed.

Lemma INT_MIN_rem : Z.rem INT_MIN 5 ≠ 0.
Proof. done. Qed.

(** ** The scan *)

Lemma gtb_max (a b : Z) : (if a >? b then a else b) = Z.max b a.
Proof. rewrite Z.gtb_ltb. destruct (Z.ltb_spec b a); lia. Qed.

Lemma multiples_cons v data :
  multiples (v :: data) =
  if decide (Z.rem v 5 = 0) then v :: multiples data else multiples data.
Proof. unfold multiples. by rewrite filter_cons. Qed.

Lemma multiples_app l1 l2 : multiples (l1 ++ l2) = multiples l1 ++ multiples l2.
Proof. apply filter_app. Qed.

Lemma count_of_nonneg data : 0 ≤ count_of data.
Proof. unfold count_of. lia. Qed.

Lemma count_of_length data : count_of data ≤ Z.of_nat (length data).
Proof. unfold count_of, multiples. pose proof (length_filter (λ v, Z.rem v 5 = 0) data). lia. Qed.

Lemma count_of_app l1 l2 : count_of (l1 ++ l2) = count_of l1 + count_of l2.
Proof. unfold count_of. rewrite multiples_app, length_app. lia. Qed.

Lemma foldr_max_app (a : Z) l1 l2 :
  foldr Z.max a (l1 ++ l2) = Z.max (foldr Z.max a l1) (foldr Z.max a l2).
Proof.
  induction l1 as [|x l1 IH]; simpl.
  - induction l2 as [|y l2 IH]; simpl; lia.
  - rewrite IH. lia.
Qed.

Lemma foldr_max_ge (a : Z) l : a ≤ foldr Z.max a l.
Proof. induction l; simpl; lia. Qed.

Lemma foldr_max_upper (a : Z) l v : v ∈ l → v ≤ foldr Z.max a l.
Proof.
  induction l as [|x l IH]; [by intros ?%elem_of_nil|].
  intros [->|Hin]%elem_of_cons; simpl; [lia|]. specialize (IH Hin). lia.
Qed.

Lemma foldr_max_elem (a : Z) l : foldr Z.max a l = a ∨ foldr Z.max a l ∈ l.
Proof.
  induction l as [|x l IH]; simpl; [by left|].
  destruct (Z.max_spec x (foldr Z.max a l)) as [[Hlt E]|[Hle E]]; rewrite E.
  - destruct IH as [IH|IH]; [by left|right]. apply elem_of_cons. by right.
  - right. apply elem_of_cons. by left.
Qed.

Lemma max_of_app l1 l2 : max_of (l1 ++ l2) = Z.max (max_of l1) (max_of l2).
Proof. unfold max_of. by rewrite multiples_app, foldr_max_app. Qed.

Lemma max_of_ge data : INT_MIN ≤ max_of data.
Proof. apply foldr_max_ge. Qed.

Lemma range_for_spec data count maxValue :
  0 ≤ count → count + count_of data ≤ INT_MAX → INT_MIN ≤ maxValue →
  range_for data (count, maxValue) =
  Some (count + count_of data, Z.max maxValue (max_of data)).
Proof.
  revert count maxValue. induction data as [|v data IH]; intros c m Hc Hs Hm.
  - simpl. unfold count_of, max_of. simpl. do 2 f_equal; lia.
  - change (v :: data) with ([v] ++ data) in *.
    rewrite count_of_app in Hs. rewrite count_of_app, max_of_app.
    pose proof (count_of_nonneg data) as Hd.
    simpl. unfold visit. unfold count_of, max_of in *.
    rewrite multiples_cons in *. simpl in *.
    destruct (Z.eqb_spec (Z.rem v 5) 0) as [E|E].
    + rewrite decide_True in * by done. simpl in *.
      rewrite checked_Some by int_arith.
      simpl. rewrite gtb_max, IH by lia. do 2 f_equal; lia.
    + rewrite decide_False in * by done. simpl in *.
      rewrite IH by lia. do 2 f_equal. lia.
Qed.

Lemma Dataset_count data : Dataset data → count_of data ≤ INT_MAX.
Proof. intros [_ H]. pose proof (count_of_length data). lia. Qed.

Lemma linearExecution_result data :
  count_of data ≤ INT_MAX →
  linearExecution data = Some (count_of data, max_of data).
Proof.
  intros H. unfold linearExecution.
  rewrite range_for_spec by (done || lia).
  pose proof (max_of_ge data). do 2 f_equal. lia.
Qed.

Lemma elem_of_multiples v data :
  v ∈ multiples data ↔ v ∈ data ∧ Z.rem v 5 = 0.
Proof. unfold multiples. rewrite list_elem_of_filter. tauto. Qed.

(** No [int] multiple of 5 is the sentinel. *)
Lemma multiple_above_sentinel v : is_int v → Z.rem v 5 = 0 → INT_MIN < v.
Proof.
  intros [Hlo _] Hrem. destruct (decide (v = INT_MIN)) as [->|]; [|lia].
  by destruct INT_MIN_rem.
Qed.

Lemma count_of_zero data : count_of data = 0 ↔ multiples data = [].
Proof.
  unfold count_of. destruct (multiples data); simpl; [done|].
  split; [lia|done].
Qed.

Lemma max_of_sentinel data :
  Forall is_int data → (count_of data = 0 ↔ max_of data = INT_MIN).
Proof.
  intros Hint. rewrite count_of_zero. unfold max_of. split.
  - by intros ->.
  - intros E. destruct (multiples data) as [|v l] eqn:Hm; [done|exfalso].
    assert (v ∈ multiples data) as Hv by (rewrite Hm; left).
    pose proof (foldr_max_upper INT_MIN _ _ Hv) as Hle.
    apply elem_of_multiples in Hv as [Hv Hrem].
    rewrite Forall_forall in Hint.
    pose proof (multiple_above_sentinel v (Hint _ Hv) Hrem).
    rewrite Hm in Hle. lia.
Qed.

Lemma max_of_elem data :
  max_of data = INT_MIN ∨ (max_of data ∈ data ∧ Z.rem (max_of data) 5 = 0).
Proof.
  unfold max_of. destruct (foldr_max_elem INT_MIN (multiples data)) as [E|E].
  - by left.
  - right. by apply elem_of_multiples.
Qed.

Lemma max_of_upper data v : v ∈ data → Z.rem v 5 = 0 → v ≤ max_of data.
Proof.
  intros Hv Hrem. apply foldr_max_upper. by apply elem_of_multiples.
Qed.

(** The elements a section loop visits. *)
Lemma index_for_range n i data acc :
  0 ≤ i → (Z.to_nat i + n ≤ length data)%nat →
  index_for n i data acc = range_for (take n (drop (Z.to_nat i) data)) acc.
Proof.
  revert i acc. induction n as [|n IH]; intros i acc Hi Hlen; [done|].
  assert (Z.to_nat i < length data)%nat as Hlt by lia.
  destruct (lookup_lt_is_Some_2 _ _ Hlt) as [v Hv].
  simpl. unfold subscript. destruct (Z.ltb_spec i 0); [lia|].
  rewrite Hv. simpl. rewrite (drop_S _ _ _ Hv). simpl.
  destruct (visit v acc) as [acc'|]; [simpl|done].
  rewrite IH by lia. by replace (Z.to_nat (i + 1)) with (S (Z.to_nat i)) by lia.
Qed.

Lemma scan_section_result start end_ data :
  0 ≤ start → start ≤ end_ → end_ ≤ Z.of_nat (length data) →
  Z.of_nat (length data) ≤ INT_MAX →
  scan_section start end_ data =
  Some (count_of (take (iterations start end_) (drop (Z.to_nat start) data)),
        max_of (take (iterations start end_) (drop (Z.to_nat start) data))).
Proof.
  intros H0 Hse Hlen Hmax. unfold scan_section.
  rewrite index_for_range by (unfold iterations; lia).
  apply linearExecution_result.
  etrans; [apply count_of_length|]. rewrite length_take, length_drop. lia.
Qed.

(** ** Partitioning *)

Lemma mapM_total {A B} (f : A → option B) (g : A → B) (l : list A) :
  Forall (λ x, f x = Some (g x)) l → mapM f l = Some (g <$> l).
Proof.
  intros H. apply mapM_Some_2, Forall2_fmap_r, Forall_Forall2_diag.
  by eapply Forall_impl.
Qed.

Lemma elem_of_thread_ids t T : t ∈ thread_ids T ↔ 0 ≤ t < T.
Proof.
  unfold thread_ids. rewrite list_elem_of_fmap. split.
  - intros (k & -> & Hk%elem_of_seq). lia.
  - intros H. exists (Z.to_nat t). rewrite elem_of_seq. lia.
Qed.

Lemma length_thread_ids T : length (thread_ids T) = Z.to_nat T.
Proof. unfold thread_ids. by rewrite length_fmap, length_seq. Qed.

Lemma lookup_thread_ids T k :
  (k < Z.to_nat T)%nat → thread_ids T !! k = Some (Z.of_nat k).
Proof.
  intros H. unfold thread_ids. rewrite list_lookup_fmap, lookup_seq_lt by done.
  done.
Qed.

Lemma chunk_facts L T t :
  0 ≤ L → 1 ≤ T → 0 ≤ t < T →
  0 ≤ L / T ∧ 0 ≤ t * (L / T) ∧ t * (L / T) + L / T ≤ L.
Proof.
  intros HL HT Ht.
  assert (0 ≤ L / T) as Hc by (apply Z.div_pos; lia).
  assert (T * (L / T) ≤ L) as Hm by (apply Z.mul_div_le; lia).
  split; [done|]. split; [nia|]. nia.
Qed.

Lemma chunk_size_result L T :
  0 ≤ L ≤ INT_MAX → 1 ≤ T ≤ INT_MAX → chunk_size L T = Some (L / T).
Proof.
  intros HL HT. unfold chunk_size. rewrite to_size_t_id by lia.
  destruct (Z.eqb_spec T 0); [lia|]. f_equal. apply to_int_id.
  pose proof (chunk_facts L T 0). unfold is_int, INT_MIN, INT_MAX in *. nia.
Qed.

Lemma section_bounds_result L T t :
  0 ≤ L ≤ INT_MAX → 1 ≤ T ≤ INT_MAX → 0 ≤ t < T →
  section_bounds L T (L / T) t = Some (chunk_bounds L T t).
Proof.
  intros HL HT Ht. destruct (chunk_facts L T t) as (Hc & Hs & He); try lia.
  unfold section_bounds, chunk_bounds.
  rewrite checked_Some by int_arith.
  simpl. destruct (Z.eqb_spec t (T - 1)); simpl.
  - rewrite to_int_id by int_arith. done.
  - rewrite checked_Some by int_arith.
    simpl. rewrite to_size_t_id, to_int_id
      by int_arith. done.
Qed.

Lemma partitions_result L T :
  0 ≤ L ≤ INT_MAX → 1 ≤ T ≤ INT_MAX →
  partitions L T = Some (chunk_bounds L T <$> thread_ids T).
Proof.
  intros HL HT. unfold partitions. rewrite chunk_size_result by done. simpl.
  apply mapM_total, Forall_forall. intros t Ht%elem_of_thread_ids.
  by apply section_bounds_result.
Qed.

Lemma chunk_bounds_ordered L T t :
  0 ≤ L → 1 ≤ T → 0 ≤ t < T →
  0 ≤ (chunk_bounds L T t).1 ∧ (chunk_bounds L T t).1 ≤ (chunk_bounds L T t).2
  ∧ (chunk_bounds L T t).2 ≤ L.
Proof.
  intros HL HT Ht. destruct (chunk_facts L T t) as (Hc & Hs & He); try lia.
  unfold chunk_bounds. simpl. destruct (Z.eqb_spec t (T - 1)); lia.
Qed.

(** Consecutive chunks of [c] elements make up a prefix. *)
Lemma concat_chunks (c : nat) (data : list Z) (n : nat) :
  concat ((λ k, take c (drop (k * c) data)) <$> seq 0 n) = take (n * c) data.
Proof.
  induction n as [|n IH]; [done|].
  rewrite seq_S, fmap_app, concat_app, IH. simpl.
  rewrite app_nil_r, take_take_drop. f_equal. lia.
Qed.

Lemma concat_slices data T :
  1 ≤ T →
  concat (slice data <$> (chunk_bounds (Z.of_nat (length data)) T <$> thread_ids T))
  = data.
Proof.
  intros HT. set (L := Z.of_nat (length data)).
  assert (0 ≤ L) as HL by lia.
  unfold thread_ids. destruct (Z.to_nat T) as [|n] eqn:En; [lia|].
  rewrite seq_S, !fmap_app, concat_app. simpl. rewrite app_nil_r.
  set (c := Z.to_nat (L / T)).
  rewrite <- (take_drop (n * c) data) at 3. f_equal.
  - rewrite <- concat_chunks. f_equal. rewrite <- !list_fmap_compose.
    apply list_fmap_ext. intros i k Hk%lookup_seq. simpl.
    destruct (chunk_facts L T (Z.of_nat k)) as (Hc & Hs & He); try lia.
    unfold slice, chunk_bounds, iterations. simpl.
    destruct (Z.eqb_spec (Z.of_nat k) (T - 1)); [lia|].
    f_equal; [unfold c; lia|]. f_equal. unfold c.
    rewrite Z2Nat.inj_mul by lia. lia.
  - destruct (chunk_facts L T (Z.of_nat n)) as (Hc & Hs & He); try lia.
    unfold slice, chunk_bounds, iterations. simpl.
    destruct (Z.eqb_spec (Z.of_nat n) (T - 1)); [|lia].
    assert (Z.of_nat (n * c) = Z.of_nat n * (L / T)) as Hnc
      by (unfold c; rewrite Nat2Z.inj_mul, Z2Nat.id; lia).
    replace (Z.to_nat (Z.of_nat n * (L / T))) with (n * c)%nat by lia.
    apply take_ge. rewrite length_drop. unfold L in *. lia.
Qed.

(** ** Local results and their totals *)

Lemma chunk_bounds_in_bounds data T :
  1 ≤ T →
  Forall (in_bounds data) (chunk_bounds (Z.of_nat (length data)) T <$> thread_ids T).
Proof.
  intros HT. apply Forall_fmap, Forall_forall.
  intros t Ht%elem_of_thread_ids. apply chunk_bounds_ordered; lia.
Qed.

Lemma scan_sections_result data secs :
  Z.of_nat (length data) ≤ INT_MAX → Forall (in_bounds data) secs →
  scan_sections data secs = Some (local_results data secs).
Proof.
  intros Hlen Hsecs. apply mapM_total. eapply Forall_impl; [exact Hsecs|].
  intros [start end_] (H0 & Hse & He). simpl in *.
  by apply scan_section_result.
Qed.

Lemma total_count_local data secs :
  total_count (local_results data secs) = count_of (concat (slice data <$> secs)).
Proof.
  induction secs as [|sec secs IH]; [done|].
  unfold local_results, total_count in *. rewrite !fmap_cons.
  cbn [concat foldr fst]. by rewrite count_of_app, <- IH.
Qed.

Lemma total_max_local data secs :
  total_max (local_results data secs) = max_of (concat (slice data <$> secs)).
Proof.
  induction secs as [|sec secs IH]; [done|].
  unfold local_results, total_max in *. rewrite !fmap_cons.
  cbn [concat foldr snd]. by rewrite max_of_app, <- IH.
Qed.

Lemma total_count_perm l1 l2 : l1 ≡ₚ l2 → total_count l1 = total_count l2.
Proof. induction 1; simpl in *; lia. Qed.

Lemma total_max_perm l1 l2 : l1 ≡ₚ l2 → total_max l1 = total_max l2.
Proof. induction 1; simpl in *; lia. Qed.

Lemma total_max_ge locals : INT_MIN ≤ total_max locals.
Proof. induction locals; simpl; lia. Qed.

Lemma total_count_nonneg locals :
  Forall (λ r, 0 ≤ r.1) locals → 0 ≤ total_count locals.
Proof. induction 1; simpl; lia. Qed.

Lemma local_results_nonneg data secs :
  Forall (λ r, 0 ≤ r.1) (local_results data secs).
Proof. apply Forall_fmap, Forall_true. intros sec. apply count_of_nonneg. Qed.

(** The totals over the sections of a dataset are those of the dataset. *)
Lemma totals_of_partition data T :
  1 ≤ T →
  let secs := chunk_bounds (Z.of_nat (length data)) T <$> thread_ids T in
  total_count (local_results data secs) = count_of data ∧
  total_max (local_results data secs) = max_of data.
Proof.
  intros HT secs. unfold secs.
  by rewrite total_count_local, total_max_local, concat_slices.
Qed.

Lemma lookup_all {A} (d : A) (l : list A) :
  (λ k, default d (l !! k)) <$> seq 0 (length l) = l.
Proof.
  apply list_eq. intros i. rewrite list_lookup_fmap.
  destruct (decide (i < length l)%nat) as [Hi|Hi].
  - rewrite lookup_seq_lt by done. simpl.
    destruct (lookup_lt_is_Some_2 _ _ Hi) as [x Hx]. by rewrite Hx.
  - rewrite lookup_seq_ge, lookup_ge_None_2 by lia. done.
Qed.

(** ** The mutex reducer *)

Lemma merge_result c m r :
  is_int (c + r.1) → merge (c, m) r = Some (c + r.1, Z.max m r.2).
Proof.
  intros H. destruct r as [count maxValue]. unfold merge. simpl in *.
  rewrite checked_Some by done. simpl. by rewrite gtb_max.
Qed.

Lemma lookup_local_results data secs k sec :
  secs !! k = Some sec →
  local_results data secs !! k =
  Some (count_of (slice data sec), max_of (slice data sec)).
Proof. intros H. unfold local_results. by rewrite list_lookup_fmap, H. Qed.

Lemma scan_section_slice data sec :
  Z.of_nat (length data) ≤ INT_MAX → in_bounds data sec →
  scan_section sec.1 sec.2 data =
  Some (count_of (slice data sec), max_of (slice data sec)).
Proof. intros Hlen (H0 & Hse & He). by apply scan_section_result. Qed.

Lemma local_of_nonneg data secs k : 0 ≤ (local_of data secs k).1.
Proof.
  unfold local_of. destruct (local_results data secs !! k) as [r|] eqn:E; [|done].
  pose proof (local_results_nonneg data secs) as Hnn.
  rewrite Forall_forall in Hnn. eapply Hnn, list_elem_of_lookup_2, E.
Qed.

Lemma critical_sections_result order secs data c m :
  Z.of_nat (length data) ≤ INT_MAX → Forall (in_bounds data) secs →
  Forall (λ k, k < length secs)%nat order →
  0 ≤ c → c + total_count (local_of data secs <$> order) ≤ INT_MAX →
  INT_MIN ≤ m →
  critical_sections order secs data (c, m) =
  Some (c + total_count (local_of data secs <$> order),
        Z.max m (total_max (local_of data secs <$> order))).
Proof.
  intros Hlen Hsecs Horder. revert c m.
  induction Horder as [|k order Hk Horder IH]; intros c m Hc Hsum Hm.
  - simpl in *. do 2 f_equal; lia.
  - destruct (lookup_lt_is_Some_2 _ _ Hk) as [sec Hsec].
    assert (in_bounds data sec) as Hin.
    { rewrite Forall_forall in Hsecs. eapply Hsecs, list_elem_of_lookup_2, Hsec. }
    rewrite fmap_cons in *. unfold total_count, total_max in *.
    cbn [foldr] in *. fold (total_count (local_of data secs <$> order)) in *.
    fold (total_max (local_of data secs <$> order)) in *.
    assert (0 ≤ total_count (local_of data secs <$> order)) as Hrest.
    { apply total_count_nonneg, Forall_fmap, Forall_true.
      intros j. apply local_of_nonneg. }
    pose proof (local_of_nonneg data secs k) as Hk0.
    cbn [critical_sections]. rewrite Hsec. destruct sec as [start end_].
    cbn [mbind option_bind]. unfold processSectionWithMutex.
    pose proof (scan_section_slice data (start, end_) Hlen Hin) as Hscan.
    cbn [fst snd] in Hscan. rewrite Hscan.
    cbn [mbind option_bind].
    assert (local_of data secs k =
            (count_of (slice data (start, end_)), max_of (slice data (start, end_))))
      as Hloc by (unfold local_of; by rewrite (lookup_local_results _ _ _ _ Hsec)).
    rewrite <- Hloc.
    rewrite merge_result by int_arith.
    cbn [mbind option_bind]. rewrite IH by lia. do 2 f_equal; lia.
Qed.

Lemma parallelWithMutex_result data T order :
  Dataset data → 1 ≤ T ≤ INT_MAX → lock_order T order →
  parallelWithMutex data T order = Some (count_of data, max_of data).
Proof.
  intros [Hint Hlen] HT Horder. unfold parallelWithMutex.
  rewrite partitions_result by lia. simpl.
  set (secs := chunk_bounds (Z.of_nat (length data)) T <$> thread_ids T).
  assert (length secs = Z.to_nat T) as Hsecs
    by (unfold secs; by rewrite length_fmap, length_thread_ids).
  destruct (totals_of_partition data T) as [Hcount Hmax]; [lia|]. fold secs in Hcount, Hmax.
  assert (local_of data secs <$> order ≡ₚ local_results data secs) as Hperm.
  { transitivity (local_of data secs <$> seq 0 (length (local_results data secs))).
    - apply (fmap_Permutation (local_of data secs)).
      unfold local_results. rewrite length_fmap, Hsecs. exact Horder.
    - unfold local_of. by rewrite lookup_all. }
  rewrite critical_sections_result.
  - rewrite (total_count_perm _ _ Hperm), (total_max_perm _ _ Hperm), Hcount, Hmax.
    pose proof (max_of_ge data). do 2 f_equal; lia.
  - done.
  - by apply chunk_bounds_in_bounds; lia.
  - rewrite Hsecs. apply Forall_forall. intros k Hk.
    unfold lock_order in Horder. rewrite Horder in Hk. apply elem_of_seq in Hk. lia.
  - done.
  - rewrite (total_count_perm _ _ Hperm), Hcount.
    pose proof (count_of_length data). lia.
  - done.
Qed.

(** ** The lock-free reducer: steps *)

Lemma step_inv st e st' :
  step st e = Some st' →
  ∃ w w' m', workers st !! actor e = Some w ∧
             processSectionWithCAS e w (shared st) = Some (w', m') ∧
             st' = State m' (<[actor e := w']> (workers st)).
Proof.
  unfold step. destruct (workers st !! actor e) as [w|] eqn:Hw; [simpl|done].
  destruct (processSectionWithCAS e w (shared st)) as [[w' m']|] eqn:Hs; [simpl|done].
  intros [= <-]. by exists w, w', m'.
Qed.

Lemma step_at st e w w' m' :
  workers st !! actor e = Some w → processSectionWithCAS e w (shared st) = Some (w', m') →
  step st e = Some (State m' (<[actor e := w']> (workers st))).
Proof. intros Hw Hs. unfold step. rewrite Hw. simpl. by rewrite Hs. Qed.

Lemma readable_spec m seen v :
  readable m seen v = true ↔ v ∈ atomicMax m :: overwritten m ∧ seen ≤ v.
Proof. unfold readable. apply bool_decide_eq_true. Qed.

Lemma worker_step_access e w m w' m' :
  processSectionWithCAS e w m = Some (w', m') → access w m e w' m'.
Proof.
  unfold processSectionWithCAS.
  destruct e as [k|k v|k|k|k v|k], (at_pc w) as [|seen|currentMax|] eqn:Hpc;
    try done; rewrite ?Z.gtb_ltb.
  - intros [= <- <-]. by constructor.
  - destruct (readable m seen v) eqn:Hr; [|done]. intros [= <- <-].
    apply readable_spec in Hr as [Hin Hle]. by econstructor.
  - destruct (Z.ltb_spec currentMax (localMax w)); [done|].
    intros [= <- <-]. by econstructor.
  - destruct (Z.ltb_spec currentMax (localMax w)); [simpl|done].
    destruct (Z.eqb_spec (atomicMax m) currentMax) as [<-|]; [|done].
    intros [= <- <-]. by constructor.
  - destruct (Z.ltb_spec currentMax (localMax w)); [simpl|done].
    destruct (Z.eqb_spec v currentMax); [done|simpl].
    destruct (readable m currentMax v) eqn:Hr; [|done]. intros [= <- <-].
    apply readable_spec in Hr as [Hin Hle]. econstructor; eauto. lia.
  - destruct (Z.ltb_spec currentMax (localMax w)); [|done].
    intros [= <- <-]. by econstructor.
Qed.

Lemma run_app s1 s2 st : run (s1 ++ s2) st = run s1 st ≫= run s2.
Proof.
  revert st. induction s1 as [|e s1 IH]; intros st; [done|].
  simpl. destruct (step st e); simpl; [apply IH|done].
Qed.

Lemma run_invariant (P : state → Prop) :
  (∀ st e st', P st → step st e = Some st' → P st') →
  ∀ sched st st', P st → run sched st = Some st' → P st'.
Proof.
  intros Hstep. induction sched as [|e sched IH]; intros st st' HP; simpl.
  - by intros [= <-].
  - destruct (step st e) as [st1|] eqn:E; [simpl|done]. eauto.
Qed.

Lemma sum_over_insert f ws k w w' :
  ws !! k = Some w →
  sum_over f (<[k := w']> ws) = sum_over f ws - f w + f w'.
Proof.
  revert k. induction ws as [|x ws IH]; intros [|k]; simpl; try done.
  - intros [= ->]. lia.
  - intros H. rewrite (IH _ H). lia.
Qed.

Lemma results_of_goto ws k w p :
  ws !! k = Some w → results_of (<[k := goto w p]> ws) = results_of ws.
Proof.
  intros H. unfold results_of. rewrite list_fmap_insert. simpl.
  apply list_insert_id. by rewrite list_lookup_fmap, H.
Qed.

Lemma total_max_upper locals k r : locals !! k = Some r → r.2 ≤ total_max locals.
Proof.
  revert k. induction locals as [|x locals IH]; intros [|k]; simpl; try done.
  - intros [= ->]. lia.
  - intros H. specialize (IH _ H). lia.
Qed.

Lemma total_max_least locals b :
  INT_MIN ≤ b → (∀ k r, locals !! k = Some r → r.2 ≤ b) → total_max locals ≤ b.
Proof.
  intros Hb. induction locals as [|x locals IH]; intros H; simpl; [done|].
  pose proof (H 0%nat x eq_refl). apply Z.max_lub; [done|].
  apply IH. intros k r Hk. by apply (H (S k)).
Qed.

(** ** The lock-free reducer: the invariant *)

Lemma lookup_results_of ws k w :
  ws !! k = Some w → results_of ws !! k = Some (localCount w, localMax w).
Proof. intros H. unfold results_of. by rewrite list_lookup_fmap, H. Qed.

Lemma sum_over_added_initial locals :
  sum_over added ((λ r, Worker r.1 r.2 AtFetchAdd) <$> locals) = 0.
Proof.
  induction locals as [|r locals IH]; [done|].
  rewrite fmap_cons. unfold sum_over in *. cbn [foldr]. by rewrite IH.
Qed.

Lemma added_goto w p :
  added (goto w p) = match p with AtFetchAdd => 0 | _ => localCount w end.
Proof. done. Qed.

Lemma invariant_initial locals : invariant locals (initial_state locals).
Proof.
  split; simpl.
  - unfold results_of. rewrite <- list_fmap_compose.
    rewrite <- (list_fmap_id locals) at 2. apply list_fmap_ext.
    by intros i [c m] _.
  - rewrite sum_over_added_initial. done.
  - done.
  - apply total_max_ge.
  - by intros h ?%elem_of_nil.
  - intros k w v Hw Hseen. rewrite list_lookup_fmap in Hw.
    destruct (locals !! k); simplify_eq/=.
  - intros k w Hw Hfin. rewrite list_lookup_fmap in Hw.
    destruct (locals !! k); simplify_eq/=.
Qed.

Lemma invariant_step locals st e st' :
  invariant locals st → step st e = Some st' → invariant locals st'.
Proof.
  intros [Hres Hcount Hlo Hup Hnew Hseen Hfin] Hstep.
  apply step_inv in Hstep as (w & w' & m' & Hw & Hstep & ->).
  apply worker_step_access in Hstep.
  assert (localMax w ≤ total_max locals) as Hlm.
  { rewrite <- Hres.
    apply (total_max_upper _ (actor e) (localCount w, localMax w)).
    by apply lookup_results_of. }
  assert (∀ v, v ∈ atomicMax (shared st) :: overwritten (shared st) →
               v ≤ atomicMax (shared st)) as Hwritten.
  { intros v [->|Hv]%elem_of_cons; [done|by apply Hnew]. }
  assert (∀ p, sum_over added (<[actor e := goto w p]> (workers st)) =
               sum_over added (workers st) - added w + added (goto w p)) as Hsum
    by (intros p; by apply sum_over_insert).
  assert (∀ v, seen_by w = Some v → v ≤ atomicMax (shared st)) as Hmine
    by (intros v; by apply (Hseen (actor e))).
  unfold seen_by in Hmine.
  destruct Hstep as [k Hpc|k seen v Hpc Hin Hle|k currentMax Hpc Hle|k Hpc Hlt
                    |k currentMax v Hpc Hlt Hin Hne|k currentMax Hpc Hlt];
    rewrite Hpc in Hmine; split; simpl actor in *; simpl shared; simpl workers;
    simpl atomicMax; simpl atomicCount; simpl overwritten;
    try done; try (by rewrite results_of_goto); try lia.
  all: try (rewrite Hsum, added_goto;
            change (added w)
              with (match at_pc w with AtFetchAdd => 0 | _ => localCount w end);
            rewrite Hpc, Hcount, ?to_int_add_l; f_equal; lia).
  all: try (intros h [->|Hh]%elem_of_cons; [lia|specialize (Hnew h Hh); lia]).
  all: intros j w0;
    lazymatch goal with |- ∀ _ : Z, _ => intros v0 | |- _ => idtac end;
    intros [(_ & <- & Hj)|(Hne' & Hj)]%list_lookup_insert_Some;
    unfold seen_by, finished; simpl; try done.
  all: try (intros [= <-]).
  all: try (specialize (Hmine _ eq_refl)).
  all: try (specialize (Hwritten _ Hin)).
  all: try lia.
  all: try (by apply (Hseen j)).
  all: try (by apply (Hfin j)).
  - intros Hs. specialize (Hseen _ _ _ Hj Hs). lia.
  - intros Hf. specialize (Hfin _ _ Hj Hf). lia.
Qed.

Lemma invariant_run_from locals sched st st' :
  invariant locals st → run sched st = Some st' → invariant locals st'.
Proof.
  apply (run_invariant (invariant locals)). intros ???. apply invariant_step.
Qed.

Lemma invariant_run locals sched st :
  run sched (initial_state locals) = Some st → invariant locals st.
Proof. apply invariant_run_from, invariant_initial. Qed.

Lemma joined_lookup st k w :
  joined st = true → workers st !! k = Some w → finished w = true.
Proof.
  unfold joined. rewrite forallb_forall. intros H Hk.
  apply H, list_elem_of_In, list_elem_of_lookup. eauto.
Qed.

Lemma sum_over_added_finished ws :
  (∀ k w, ws !! k = Some w → finished w = true) →
  sum_over added ws = total_count (results_of ws).
Proof.
  induction ws as [|w ws IH]; intros H; [done|]. simpl.
  rewrite IH by (intros k; apply (H (S k))). f_equal.
  specialize (H 0%nat w eq_refl). unfold finished, added in *.
  by destruct (at_pc w).
Qed.

(** When all workers have returned, the shared counter holds the sum of the
    local counts and the shared maximum the greatest local maximum. *)
Lemma joined_result locals sched st :
  run sched (initial_state locals) = Some st → joined st = true →
  atomicCount (shared st) = to_int (total_count locals) ∧
  atomicMax (shared st) = total_max locals.
Proof.
  intros Hrun Hj. destruct (invariant_run _ _ _ Hrun)
    as [Hres Hcount Hlo Hup Hnew Hseen Hfin]. split.
  - rewrite Hcount, sum_over_added_finished, Hres; [done|].
    intros k w. by apply joined_lookup.
  - apply Z.le_antisymm; [done|]. apply total_max_least; [done|].
    intros k r Hr. rewrite <- Hres in Hr. unfold results_of in Hr.
    rewrite list_lookup_fmap in Hr.
    destruct (workers st !! k) as [w|] eqn:Hw; simplify_eq/=.
    eapply Hfin; [done|]. by eapply joined_lookup.
Qed.

(** ** The lock-free reducer: the measure of the retry loops *)

Lemma above_cons s h l :
  above s (h :: l) = (if decide (s < h) then 1 else 0) + above s l.
Proof.
  unfold above. rewrite filter_cons. case_decide; simpl; lia.
Qed.

Lemma above_nonneg s l : 0 ≤ above s l.
Proof. unfold above. lia. Qed.

Lemma above_mono s s' l : s ≤ s' → above s' l ≤ above s l.
Proof.
  intros Hs. induction l as [|h l IH]; [done|].
  rewrite !above_cons. repeat case_decide; lia.
Qed.

(** Reading a newer value leaves fewer values to read. *)
Lemma above_strict s v l : v ∈ l → s < v → above v l + 1 ≤ above s l.
Proof.
  intros Hin Hs. induction l as [|h l IH]; [by apply elem_of_nil in Hin|].
  rewrite !above_cons. apply elem_of_cons in Hin as [<-|Hin].
  - pose proof (above_mono s v l ltac:(lia)). repeat case_decide; lia.
  - specialize (IH Hin). repeat case_decide; lia.
Qed.

Lemma weight_eq n m w :
  weight n m w =
  match at_pc w with
  | AtFetchAdd => 3 + 2 * unseen m INT_MIN + 2 * n
  | AtLoad seen => 2 + 2 * unseen m seen + 2 * n
  | AtWhile currentMax => 1 + 2 * unseen m currentMax + 2 * n
  | Finished => 0
  end.
Proof. done. Qed.

Lemma weight_nonneg n m w : 0 ≤ n → 0 ≤ weight n m w.
Proof.
  intros Hn. rewrite weight_eq. unfold unseen.
  destruct (at_pc w) as [|s|c|]; try lia;
    match goal with |- context [above ?s ?l] => pose proof (above_nonneg s l) end;
    lia.
Qed.

(** A write of [atomicMax] gives every worker one more value to read. *)
Lemma weight_push n c x m w :
  weight n (Atomics c x (atomicMax m :: overwritten m)) w ≤ weight n m w + 2.
Proof.
  rewrite !weight_eq. unfold unseen. simpl.
  destruct (at_pc w) as [|s|s|]; try lia;
    rewrite (above_cons _ x); case_decide; lia.
Qed.

Lemma sum_over_push n c x m ws :
  sum_over (weight n (Atomics c x (atomicMax m :: overwritten m))) ws ≤
  sum_over (weight n m) ws + 2 * Z.of_nat (length ws).
Proof.
  induction ws as [|w ws IH]; simpl; [lia|].
  pose proof (weight_push n c x m w). lia.
Qed.

Lemma sum_over_nonneg f ws : (∀ w, 0 ≤ f w) → 0 ≤ sum_over f ws.
Proof.
  intros H. induction ws as [|w ws IH]; simpl; [lia|]. specialize (H w). lia.
Qed.

Lemma potential_nonneg st : 0 ≤ potential st.
Proof. apply sum_over_nonneg. intros w. apply weight_nonneg. lia. Qed.

(** Every access lowers the measure, except a spurious failure, which
    raises it by one. *)
Lemma step_potential st e st' :
  step st e = Some st' →
  potential st' + 1 ≤ potential st + (if is_spurious e then 2 else 0).
Proof.
  intros Hstep.
  apply step_inv in Hstep as (w & w' & m' & Hw & Hstep & ->).
  apply worker_step_access in Hstep. unfold potential. simpl.
  rewrite length_insert. set (n := Z.of_nat (length (workers st))).
  assert (0 ≤ n) as Hn by lia.
  destruct Hstep as [k Hpc|k seen v Hpc Hin Hle|k currentMax Hpc Hle|k Hpc Hlt
                    |k currentMax v Hpc Hlt Hin Hne|k currentMax Hpc Hlt];
    simpl.
  - change (weight n (Atomics (to_int (atomicCount (shared st) + localCount w))
                              (atomicMax (shared st)) (overwritten (shared st))))
      with (weight n (shared st)).
    rewrite (sum_over_insert _ _ _ _ _ Hw), !weight_eq. cbn [goto at_pc].
    rewrite Hpc. lia.
  - rewrite (sum_over_insert _ _ _ _ _ Hw), !weight_eq. cbn [goto at_pc].
    rewrite Hpc. unfold unseen.
    pose proof (above_mono seen v
                  (atomicMax (shared st) :: overwritten (shared st)) Hle).
    lia.
  - rewrite (sum_over_insert _ _ _ _ _ Hw), !weight_eq. cbn [goto at_pc].
    rewrite Hpc. unfold unseen.
    pose proof (above_nonneg currentMax
                  (atomicMax (shared st) :: overwritten (shared st))).
    lia.
  - pose proof (sum_over_push n (atomicCount (shared st)) (localMax w)
                  (shared st) (<[k := goto w Finished]> (workers st))) as Hpush.
    rewrite length_insert in Hpush. fold n in Hpush.
    rewrite (sum_over_insert (weight n (shared st)) _ _ _ _ Hw),
      !weight_eq in Hpush.
    cbn [goto at_pc] in Hpush. rewrite Hpc in Hpush. unfold unseen in Hpush.
    pose proof (above_nonneg (atomicMax (shared st))
                  (atomicMax (shared st) :: overwritten (shared st))).
    lia.
  - rewrite (sum_over_insert _ _ _ _ _ Hw), !weight_eq. cbn [goto at_pc].
    rewrite Hpc. unfold unseen.
    pose proof (above_strict currentMax v _ Hin Hne). lia.
  - rewrite (sum_over_insert _ _ _ _ _ Hw), !weight_eq. cbn [goto at_pc].
    rewrite Hpc. lia.
Qed.

Lemma spurious_failures_cons e sched :
  spurious_failures (e :: sched) =
  (if is_spurious e then 1 else 0) + spurious_failures sched.
Proof.
  unfold spurious_failures. rewrite filter_cons.
  destruct (decide (is_spurious e = true)) as [E|E].
  - rewrite E. simpl. lia.
  - by destruct (is_spurious e).
Qed.

Lemma run_potential sched st st' :
  run sched st = Some st' →
  potential st' + Z.of_nat (length sched) ≤
  potential st + 2 * spurious_failures sched.
Proof.
  revert st. induction sched as [|e sched IH]; intros st; simpl.
  - intros [= <-]. unfold spurious_failures. simpl. lia.
  - destruct (step st e) as [st1|] eqn:E; [simpl|done]. intros Hrun.
    specialize (IH _ Hrun). apply step_potential in E.
    rewrite spurious_failures_cons. destruct (is_spurious e); lia.
Qed.

Lemma potential_initial locals :
  potential (initial_state locals) =
  Z.of_nat (length locals) * (3 + 2 * Z.of_nat (length locals)).
Proof.
  unfold potential, initial_state. simpl. rewrite length_fmap.
  generalize (Z.of_nat (length locals)) at 1 3. intros n.
  induction locals as [|r locals IH]; [done|].
  rewrite fmap_cons. unfold sum_over in *. cbn [foldr]. rewrite IH.
  rewrite weight_eq. cbn [at_pc length]. 
  change (unseen (Atomics 0 INT_MIN []) INT_MIN) with 0. lia.
Qed.

(** A run of [n] workers makes at most [n * (3 + 2 * n)] steps beyond
    twice its spurious failures. *)
Lemma run_length locals sched st :
  run sched (initial_state locals) = Some st →
  Z.of_nat (length sched) ≤
  Z.of_nat (length locals) * (3 + 2 * Z.of_nat (length locals))
  + 2 * spurious_failures sched.
Proof.
  intros Hrun. apply run_potential in Hrun.
  rewrite potential_initial in Hrun. pose proof (potential_nonneg st). lia.
Qed.

(** ** The lock-free reducer: every run can be completed *)

Lemma goto_finished w : at_pc w = Finished → goto w Finished = w.
Proof. destruct w as [c m p]. simpl. by intros ->. Qed.

Lemma spurious_failures_app s1 s2 :
  spurious_failures (s1 ++ s2) = spurious_failures s1 + spurious_failures s2.
Proof. unfold spurious_failures. rewrite filter_app, length_app. lia. Qed.

(** A worker about to load can read the value written last and return. *)
Lemma run_from_load st k w seen :
  workers st !! k = Some w → at_pc w = AtLoad seen →
  seen ≤ atomicMax (shared st) →
  ∃ s st', run s st = Some st' ∧ spurious_failures s = 0 ∧
           workers st' = <[k := goto w Finished]> (workers st).
Proof.
  intros Hw Hpc Hseen. pose proof (lookup_lt_Some _ _ _ Hw) as Hk.
  set (latest := atomicMax (shared st)).
  set (st1 := State (shared st) (<[k := goto w (AtWhile latest)]> (workers st))).
  assert (step st (Load k latest) = Some st1) as H1.
  { apply (step_at st (Load k latest) w); [done|].
    unfold processSectionWithCAS. rewrite Hpc.
    assert (readable (shared st) seen latest = true) as ->; [|done].
    apply readable_spec. split; [left|done]. }
  assert (∃ e m2, actor e = k ∧ is_spurious e = false ∧
                  processSectionWithCAS e (goto w (AtWhile latest)) (shared st1)
                  = Some (goto w Finished, m2)) as (e & m2 & He & Hsp & H2).
  { destruct (localMax w >? latest) eqn:Hgt.
    - exists (Exchange k). eexists. split; [done|]. split; [done|].
      unfold processSectionWithCAS. simpl. fold latest. by rewrite Hgt, Z.eqb_refl.
    - exists (Return k). eexists. split; [done|]. split; [done|].
      unfold processSectionWithCAS. simpl. by rewrite Hgt. }
  exists [Load k latest; e], (State m2 (<[k := goto w Finished]> (workers st))).
  split; [|split; [|done]].
  - cbn [run]. rewrite H1. cbn [mbind option_bind].
    rewrite (step_at st1 e (goto w (AtWhile latest)) (goto w Finished) m2).
    + simpl. by rewrite He, list_insert_insert_eq.
    + rewrite He. simpl. by apply list_lookup_insert_eq.
    + done.
  - rewrite !spurious_failures_cons, Hsp. done.
Qed.

(** Whatever a worker is at, it can run to its return, and no exchange of
    it need fail spuriously on the way. *)
Lemma run_worker locals st k w :
  invariant locals st → workers st !! k = Some w →
  ∃ s st', run s st = Some st' ∧ spurious_failures s = 0 ∧
           workers st' = <[k := goto w Finished]> (workers st).
Proof.
  intros Hinv Hw. pose proof (lookup_lt_Some _ _ _ Hw) as Hk.
  assert (∀ e m1 p,
            actor e = k → is_spurious e = false →
            processSectionWithCAS e w (shared st) = Some (goto w p, m1) →
            (∀ seen, p = AtLoad seen → seen ≤ atomicMax m1) →
            p = Finished ∨ (∃ seen, p = AtLoad seen) →
            ∃ s st', run s st = Some st' ∧ spurious_failures s = 0 ∧
                     workers st' = <[k := goto w Finished]> (workers st))
    as Hfirst.
  { intros e m1 p He Hsp Hs Hseen Hp.
    pose proof (step_at st e w (goto w p) m1) as H1. rewrite He in H1.
    specialize (H1 Hw Hs). destruct Hp as [->|[seen ->]].
    - exists [e]. eexists. split; [simpl; by rewrite H1|]. split; [|done].
      by rewrite spurious_failures_cons, Hsp.
    - destruct (run_from_load (State m1 (<[k := goto w (AtLoad seen)]> (workers st)))
                  k (goto w (AtLoad seen)) seen)
        as (s & st' & Hrun & Hs0 & Hws);
        [simpl; by apply list_lookup_insert_eq|done|simpl; by apply Hseen|].
      exists (e :: s), st'. split; [|split].
      + change (step st e ≫= run s = Some st'). by rewrite H1.
      + by rewrite spurious_failures_cons, Hsp, Hs0.
      + rewrite Hws. simpl. by rewrite list_insert_insert_eq. }
  destruct (at_pc w) as [|seen|currentMax|] eqn:Hpc.
  - eapply (Hfirst (FetchAdd k) _ (AtLoad INT_MIN)); [done|done| |..].
    + unfold processSectionWithCAS. by rewrite Hpc.
    + intros seen [= <-]. simpl. apply Hinv.
    + eauto.
  - apply (run_from_load st k w seen Hw Hpc).
    apply (inv_seen _ _ Hinv k w); [done|]. unfold seen_by. by rewrite Hpc.
  - assert (currentMax ≤ atomicMax (shared st)) as Hcur.
    { apply (inv_seen _ _ Hinv k w); [done|]. unfold seen_by. by rewrite Hpc. }
    destruct (localMax w >? currentMax) eqn:Hgt;
      [destruct (Z.eqb_spec (atomicMax (shared st)) currentMax) as [Heq|Hne]|].
    + eapply (Hfirst (Exchange k) _ Finished); [done|done| |done|eauto].
      unfold processSectionWithCAS. rewrite Hpc, Hgt, Heq, Z.eqb_refl. done.
    + eapply (Hfirst (Fail k (atomicMax (shared st))) _
                     (AtLoad (atomicMax (shared st)))); [done|done| |..].
      * unfold processSectionWithCAS. rewrite Hpc, Hgt.
        destruct (Z.eqb_spec (atomicMax (shared st)) currentMax); [done|].
        assert (readable (shared st) currentMax (atomicMax (shared st)) = true)
          as ->; [|done].
        apply readable_spec. split; [left|done].
      * by intros seen [= <-].
      * eauto.
    + eapply (Hfirst (Return k) _ Finished); [done|done| |done|eauto].
      unfold processSectionWithCAS. by rewrite Hpc, Hgt.
  - exists [], st. split; [done|]. split; [done|].
    by rewrite goto_finished, list_insert_id.
Qed.

Lemma run_workers locals n st :
  invariant locals st → (n ≤ length (workers st))%nat →
  ∃ s st', run s st = Some st' ∧ spurious_failures s = 0 ∧
           length (workers st') = length (workers st) ∧
           (∀ j w, (j < n)%nat → workers st' !! j = Some w → finished w = true).
Proof.
  intros Hinv. induction n as [|n IH]; intros Hn.
  - exists [], st. by repeat split; [intros; lia|..].
  - destruct IH as (s1 & st1 & Hrun & Hs1 & Hlen & Hdone); [lia|].
    destruct (lookup_lt_is_Some_2 (workers st1) n) as [w Hw]; [lia|].
    destruct (run_worker locals st1 n w) as (s2 & st2 & Hrun2 & Hs2 & Hws);
      [by eapply invariant_run_from|done|].
    exists (s1 ++ s2), st2. rewrite run_app, Hrun. simpl.
    split; [done|]. split; [by rewrite spurious_failures_app, Hs1, Hs2|].
    rewrite Hws, length_insert. split; [done|].
    intros j w0 Hj. destruct (decide (j = n)) as [->|Hne].
    + rewrite list_lookup_insert_eq by lia. by intros [= <-].
    + rewrite list_lookup_insert_ne by done. apply Hdone. lia.
Qed.

(** Every run can be continued, without any spurious failure, until all
    workers have returned. *)
Lemma run_completion locals st :
  invariant locals st →
  ∃ s st', run s st = Some st' ∧ spurious_failures s = 0 ∧ joined st' = true.
Proof.
  intros Hinv.
  destruct (run_workers locals (length (workers st)) st)
    as (s & st' & Hrun & Hs & Hlen & Hdone); [done..|].
  exists s, st'. split; [done|]. split; [done|].
  unfold joined. apply forallb_forall.
  intros w Hin. apply list_elem_of_In, list_elem_of_lookup in Hin as [j Hj].
  apply (Hdone j w); [|done]. apply lookup_lt_Some in Hj. lia.
Qed.

(** ** The lock-free reducer: its result *)

Lemma spawnCAS_result data T :
  Dataset data → 1 ≤ T ≤ INT_MAX →
  spawnCAS data T =
  Some (initial_state
          (local_results data
             (chunk_bounds (Z.of_nat (length data)) T <$> thread_ids T))).
Proof.
  intros [Hint Hlen] HT. unfold spawnCAS.
  rewrite partitions_result by lia. cbn [mbind option_bind].
  rewrite scan_sections_result; [done|done|].
  apply chunk_bounds_in_bounds. lia.
Qed.

Lemma parallelWithCAS_unfold data T sched :
  Dataset data → 1 ≤ T ≤ INT_MAX →
  let secs := chunk_bounds (Z.of_nat (length data)) T <$> thread_ids T in
  parallelWithCAS data T sched =
  st ← run sched (initial_state (local_results data secs));
  if joined st then Some (atomicCount (shared st), atomicMax (shared st))
  else None.
Proof.
  intros Hdata HT secs. unfold parallelWithCAS.
  by rewrite spawnCAS_result.
Qed.

Lemma parallelWithCAS_result data T sched r :
  Dataset data → 1 ≤ T ≤ INT_MAX →
  parallelWithCAS data T sched = Some r → r = (count_of data, max_of data).
Proof.
  intros Hdata HT. rewrite parallelWithCAS_unfold by done.
  set (secs := chunk_bounds (Z.of_nat (length data)) T <$> thread_ids T).
  destruct (run sched _) as [st|] eqn:Hrun; [simpl|done].
  destruct (joined st) eqn:Hj; [|done]. intros [= <-].
  destruct (joined_result _ _ _ Hrun Hj) as [-> ->].
  destruct (totals_of_partition data T) as [Hcount Hmax]; [lia|].
  fold secs in Hcount, Hmax. rewrite Hcount, Hmax, to_int_id; [done|].
  pose proof (count_of_nonneg data). pose proof (Dataset_count data Hdata).
  unfold is_int, INT_MIN in *. lia.
Qed.

Lemma parallelWithCAS_completion data T sched st :
  Dataset data → 1 ≤ T ≤ INT_MAX →
  (spawnCAS data T ≫= run sched) = Some st →
  ∃ more, spurious_failures more = 0 ∧
          parallelWithCAS data T (sched ++ more) = Some (count_of data, max_of data).
Proof.
  intros Hdata HT Hrun. rewrite spawnCAS_result in Hrun by done.
  cbn [mbind option_bind] in Hrun.
  destruct (run_completion _ st (invariant_run _ _ _ Hrun))
    as (more & st' & Hmore & Hsp & Hj).
  exists more. split; [done|].
  destruct (parallelWithCAS data T (sched ++ more)) as [r|] eqn:E.
  - f_equal. by eapply parallelWithCAS_result.
  - exfalso. rewrite parallelWithCAS_unfold in E by done.
    rewrite run_app, Hrun in E. cbn [mbind option_bind] in E.
    rewrite Hmore in E. cbn [mbind option_bind] in E. by rewrite Hj in E.
Qed.

(** ** Order independence *)

Lemma checked_spec z :
  (is_int z ∧ checked z = Some z) ∨ (¬ is_int z ∧ checked z = None).
Proof.
  unfold checked, in_int, is_int.
  destruct (Z.leb_spec INT_MIN z), (Z.leb_spec z INT_MAX); simpl;
    first [left; split; [lia|done] | right; split; [lia|done]].
Qed.

Lemma visit_comm x y acc : visit x acc ≫= visit y = visit y acc ≫= visit x.
Proof.
  destruct acc as [c m]. unfold visit.
  destruct (Z.rem x 5 =? 0), (Z.rem y 5 =? 0); simpl; try done.
  - destruct (checked (c + 1)) as [c1|]; simpl; [|done].
    destruct (checked (c1 + 1)) as [c2|]; simpl; [|done].
    rewrite !gtb_max. do 2 f_equal. lia.
  - by destruct (checked (c + 1)).
  - by destruct (checked (c + 1)).
Qed.

Lemma range_for_perm data data' :
  data ≡ₚ data' → ∀ acc, range_for data acc = range_for data' acc.
Proof.
  induction 1 as [|x l l' _ IH|x y l|l1 l2 l3 _ IH1 _ IH2]; intros acc.
  - done.
  - simpl. destruct (visit x acc); simpl; [apply IH|done].
  - simpl. pose proof (visit_comm x y acc) as Hc.
    destruct (visit x acc) as [a1|], (visit y acc) as [a2|]; simpl in *;
      try done; first [by rewrite Hc | by rewrite <- Hc].
  - by rewrite IH1.
Qed.

Lemma scan_section_range data sec :
  in_bounds data sec →
  scan_section sec.1 sec.2 data = range_for (slice data sec) (0, INT_MIN).
Proof.
  intros (H0 & Hse & He). unfold scan_section, slice.
  apply index_for_range; [done|]. unfold iterations. lia.
Qed.

Lemma visit_mono v acc acc' : visit v acc = Some acc' → acc.1 ≤ acc'.1.
Proof.
  destruct acc as [c m]. unfold visit. destruct (_ =? _).
  - destruct (checked (c + 1)) as [c1|] eqn:E; simpl; [|done].
    apply checked_inv in E as [-> _]. intros [= <-]. simpl. lia.
  - intros [= <-]. done.
Qed.

Lemma index_for_mono n i data acc acc' :
  index_for n i data acc = Some acc' → acc.1 ≤ acc'.1.
Proof.
  revert i acc. induction n as [|n IH]; intros i acc; simpl.
  - by intros [= <-].
  - destruct (subscript data i) as [v|]; simpl; [|done].
    destruct (visit v acc) as [acc1|] eqn:E; simpl; [|done].
    intros H. apply visit_mono in E. apply IH in H. lia.
Qed.

Lemma scan_section_nonneg start end_ data r :
  scan_section start end_ data = Some r → 0 ≤ r.1.
Proof. intros H. by apply index_for_mono in H. Qed.

Lemma merge_comm a b : merge a b = merge b a.
Proof.
  destruct a as [c1 m1], b as [c2 m2]. unfold merge.
  rewrite (Z.add_comm c2 c1). destruct (checked (c1 + c2)); simpl; [|done].
  rewrite !gtb_max. do 2 f_equal. lia.
Qed.

Lemma merge_count a b r : merge a b = Some r → r.1 = a.1 + b.1.
Proof.
  destruct a as [c1 m1], b as [c2 m2]. unfold merge.
  destruct (checked (c1 + c2)) as [c|] eqn:E; simpl; [|done].
  apply checked_inv in E as [-> _]. by intros [= <-].
Qed.

Lemma merge_assoc a b c :
  0 ≤ a.1 → 0 ≤ b.1 → 0 ≤ c.1 →
  (merge a b ≫= λ ab, merge ab c) = (merge b c ≫= λ bc, merge a bc).
Proof.
  destruct a as [c1 m1], b as [c2 m2], c as [c3 m3]. simpl. intros H1 H2 H3.
  unfold merge.
  destruct (checked_spec (c1 + c2)) as [[I12 ->]|[I12 ->]];
    destruct (checked_spec (c2 + c3)) as [[I23 ->]|[I23 ->]]; simpl;
    try (destruct (checked_spec (c1 + c2 + c3)) as [[I ->]|[I ->]]);
    try (destruct (checked_spec (c1 + (c2 + c3))) as [[I' ->]|[I' ->]]);
    simpl; unfold is_int, INT_MIN, INT_MAX in *; try lia; try done.
  rewrite !gtb_max. f_equal. f_equal; lia.
Qed.

(** Two workers may enter the critical section in either order. *)
Lemma merge_swap acc l1 l2 :
  0 ≤ acc.1 → 0 ≤ l1.1 → 0 ≤ l2.1 →
  (merge acc l1 ≫= λ a, merge a l2) = (merge acc l2 ≫= λ a, merge a l1).
Proof.
  destruct acc as [c m], l1 as [c1 m1], l2 as [c2 m2]. simpl. intros H H1 H2.
  unfold merge.
  destruct (checked_spec (c + c1)) as [[I1 ->]|[I1 ->]];
    destruct (checked_spec (c + c2)) as [[I2 ->]|[I2 ->]]; simpl;
    try (destruct (checked_spec (c + c1 + c2)) as [[I ->]|[I ->]]);
    try (destruct (checked_spec (c + c2 + c1)) as [[I' ->]|[I' ->]]);
    simpl; unfold is_int, INT_MIN, INT_MAX in *; try lia; try done.
  rewrite !gtb_max. f_equal. f_equal; lia.
Qed.

Lemma critical_sections_cons k rest secs data acc :
  critical_sections (k :: rest) secs data acc =
  enter secs data k acc ≫= critical_sections rest secs data.
Proof. unfold enter. simpl. by destruct (secs !! k) as [[s e]|]. Qed.

Lemma enter_nonneg secs data k acc acc' :
  0 ≤ acc.1 → enter secs data k acc = Some acc' → 0 ≤ acc'.1.
Proof.
  intros Hacc. unfold enter. destruct (secs !! k) as [[s e]|]; simpl; [|done].
  unfold processSectionWithMutex.
  destruct (scan_section s e data) as [l|] eqn:E; simpl; [|done].
  intros Hm%merge_count. apply scan_section_nonneg in E. lia.
Qed.

Lemma enter_comm secs data k1 k2 acc :
  0 ≤ acc.1 →
  enter secs data k1 acc ≫= enter secs data k2 =
  enter secs data k2 acc ≫= enter secs data k1.
Proof.
  intros Hacc. unfold enter.
  destruct (secs !! k1) as [[s1 e1]|], (secs !! k2) as [[s2 e2]|];
    simpl; try done.
  - unfold processSectionWithMutex.
    destruct (scan_section s1 e1 data) as [r1|] eqn:E1,
             (scan_section s2 e2 data) as [r2|] eqn:E2; simpl; try done.
    + apply scan_section_nonneg in E1, E2.
      apply (merge_swap acc r1 r2 Hacc E1 E2).
    + by destruct (merge acc r1).
    + by destruct (merge acc r2).
  - by destruct (processSectionWithMutex s1 e1 data acc).
  - by destruct (processSectionWithMutex s2 e2 data acc).
Qed.

Lemma critical_sections_perm order order' secs data :
  order ≡ₚ order' →
  ∀ acc, 0 ≤ acc.1 →
  critical_sections order secs data acc = critical_sections order' secs data acc.
Proof.
  induction 1 as [|k l l' _ IH|k1 k2 l|l1 l2 l3 _ IH1 _ IH2]; intros acc Hacc.
  - done.
  - rewrite !critical_sections_cons.
    destruct (enter secs data k acc) as [acc1|] eqn:E; simpl; [|done].
    apply IH. by eapply enter_nonneg.
  - rewrite !critical_sections_cons.
    pose proof (enter_comm secs data k1 k2 acc Hacc) as Hc.
    destruct (enter secs data k1 acc) as [a1|],
             (enter secs data k2 acc) as [a2|]; cbn [mbind option_bind] in *;
      rewrite ?critical_sections_cons; try done;
      first [by rewrite Hc | by rewrite <- Hc].
  - rewrite IH1 by done. by apply IH2.
Qed.

(** ** Coverage of the partition *)

Section Coverage.
Context (L T : Z) (HL : 0 ≤ L) (HT : 1 ≤ T).

(** Every index lies in a section. *)
Lemma chunk_cover i :
  0 ≤ i < L →
  ∃ t, 0 ≤ t < T ∧ (chunk_bounds L T t).1 ≤ i < (chunk_bounds L T t).2.
Proof.
  intros Hi. unfold chunk_bounds. simpl.
  destruct (chunk_facts L T (T - 1)) as (Hc & _ & Hlast); try lia.
  destruct (decide (L / T = 0)) as [E|Hne].
  { exists (T - 1). rewrite Z.eqb_refl, E. lia. }
  assert (0 < L / T) as Hpos by lia.
  pose proof (Z.mul_div_le i (L / T) Hpos).
  pose proof (Z.mul_succ_div_gt i (L / T) Hpos).
  assert (0 ≤ i / (L / T)) by (apply Z.div_pos; lia).
  destruct (decide (i / (L / T) < T - 1)) as [Hlt|Hge].
  - exists (i / (L / T)).
    destruct (Z.eqb_spec (i / (L / T)) (T - 1)); [lia|]. nia.
  - exists (T - 1). rewrite Z.eqb_refl. nia.
Qed.

(** No index lies in two sections. *)
Lemma chunk_disjoint t1 t2 i :
  0 ≤ t1 < T → 0 ≤ t2 < T →
  (chunk_bounds L T t1).1 ≤ i < (chunk_bounds L T t1).2 →
  (chunk_bounds L T t2).1 ≤ i < (chunk_bounds L T t2).2 →
  t1 = t2.
Proof.
  intros H1 H2. unfold chunk_bounds. simpl.
  assert (0 ≤ L / T) as Hc by (apply Z.div_pos; lia).
  destruct (Z.eqb_spec t1 (T - 1)), (Z.eqb_spec t2 (T - 1)); nia.
Qed.

End Coverage.

Lemma lookup_chunks L T k sec :
  (chunk_bounds L T <$> thread_ids T) !! k = Some sec ↔
  (k < Z.to_nat T)%nat ∧ sec = chunk_bounds L T (Z.of_nat k).
Proof.
  rewrite list_lookup_fmap. split.
  - intros H. assert (k < Z.to_nat T)%nat as Hk.
    { destruct (thread_ids T !! k) eqn:E; [|done].
      apply lookup_lt_Some in E. by rewrite length_thread_ids in E. }
    rewrite lookup_thread_ids in H by done. by simplify_eq/=.
  - intros [Hk ->]. by rewrite lookup_thread_ids.
Qed.

Lemma total_max_attained locals :
  locals ≠ [] → Forall (λ r, is_int r.2) locals →
  ∃ k r, locals !! k = Some r ∧ r.2 = total_max locals.
Proof.
  induction locals as [|x locals IH]; [done|]. intros _ Hint.
  apply Forall_cons in Hint as [[Hx _] Hint]. simpl.
  destruct (Z.max_spec x.2 (total_max locals)) as [[Hlt E]|[Hle E]]; rewrite E.
  - destruct locals as [|y locals]; [simpl in *; lia|].
    destruct IH as (k & r & Hk & Hr); [done|done|]. by exists (S k), r.
  - by exists 0%nat, x.
Qed.

Lemma Dataset_nil : Dataset [].
Proof. split; [constructor|]. simpl. unfold INT_MAX. lia. Qed.

Lemma chunk_bounds_empty T t : chunk_bounds 0 T t = (0, 0).
Proof.
  unfold chunk_bounds. change (0 / T) with 0. rewrite Z.mul_0_r. simpl.
  by destruct (t =? T - 1).
Qed.

(** ** The report *)

Lemma all_chars_app P s1 s2 :
  all_chars P (s1 +:+ s2) = all_chars P s1 && all_chars P s2.
Proof.
  induction s1 as [|c s1 IH]; [done|]. simpl. rewrite IH.
  by destruct (P c).
Qed.

Lemma all_chars_impl (P Q : ascii → bool) s :
  (∀ c, P c = true → Q c = true) → all_chars P s = true → all_chars Q s = true.
Proof.
  intros HPQ. induction s as [|c s IH]; [done|]. simpl.
  intros [Hc Hs]%andb_true_iff. by rewrite (HPQ _ Hc), IH.
Qed.

Lemma uint_digits d : all_chars is_digit (NilEmpty.string_of_uint d) = true.
Proof. induction d; simpl; done. Qed.

Lemma digit_is_digit d : is_digit (digit d) = true.
Proof.
  unfold is_digit, digit. pose proof (N.mod_lt d 10 ltac:(done)) as Hd.
  set (x := (d `mod` 10)%N) in *. clearbody x.
  rewrite N_ascii_embedding by lia.
  apply andb_true_iff. split; apply N.leb_le; lia.
Qed.

Lemma digit_numeric c : is_digit c = true → numeric c = true.
Proof. unfold numeric. by intros ->. Qed.

Lemma show_int_numeric z : all_chars numeric (show_int z) = true.
Proof.
  unfold show_int, NilEmpty.string_of_int.
  destruct (Z.to_int z) as [d|d]; simpl;
    apply (all_chars_impl is_digit); auto using digit_numeric, uint_digits.
Qed.

Lemma show_fixed6_numeric e : all_chars numeric (show_fixed6 e) = true.
Proof.
  unfold show_fixed6. rewrite !all_chars_app.
  apply andb_true_iff. split; [by destruct (negative e)|].
  apply andb_true_iff. split.
  { apply (all_chars_impl is_digit); auto using digit_numeric, uint_digits. }
  apply andb_true_iff. split; [done|].
  cbn [all_chars]. rewrite !digit_numeric by apply digit_is_digit. done.
Qed.


Lemma numeric_no_tab s :
  all_chars numeric s = true → all_chars (other_than tab_char) s = true.
Proof.
  apply all_chars_impl. intros c. unfold numeric, other_than.
  destruct (Ascii.eqb_spec c tab_char) as [->|]; done.
Qed.

Lemma split_on_field sep s :
  all_chars (other_than sep) s = true → split_on sep s = [s].
Proof.
  induction s as [|c s IH]; [done|]. simpl. unfold other_than at 1.
  intros [Hc Hs]%andb_true_iff. apply negb_true_iff in Hc.
  by rewrite Hc, IH.
Qed.

Lemma split_on_app sep s rest :
  all_chars (other_than sep) s = true →
  split_on sep (s +:+ String sep rest) = s :: split_on sep rest.
Proof.
  induction s as [|c s IH]; simpl.
  - by rewrite Ascii.eqb_refl.
  - unfold other_than at 1. intros [Hc Hs]%andb_true_iff.
    apply negb_true_iff in Hc. by rewrite Hc, IH.
Qed.

Lemma data_line_fields matrixSize threads mode elapsed result :
  all_chars (other_than tab_char) threads = true →
  all_chars (other_than tab_char) mode = true →
  ∃ body,
    data_line matrixSize threads mode elapsed result = body +:+ endl ∧
    split_on tab_char body =
    [show_int matrixSize; ""; threads; mode; show_fixed6 elapsed;
     show_int result.1; show_int result.2].
Proof.
  intros Hthreads Hmode. eexists. split; [reflexivity|].
  assert (∀ s, tab +:+ s = String tab_char s) as Htab by done.
  rewrite !Htab.
  rewrite split_on_app by apply numeric_no_tab, show_int_numeric.
  assert (∀ s, split_on tab_char (String tab_char s) = "" :: split_on tab_char s)
    as Hempty by done.
  rewrite Hempty.
  rewrite split_on_app by done. rewrite split_on_app by done.
  rewrite split_on_app by apply numeric_no_tab, show_fixed6_numeric.
  rewrite split_on_app by apply numeric_no_tab, show_int_numeric.
  rewrite split_on_field by apply numeric_no_tab, show_int_numeric.
  done.
Qed.

(** ** A dataset longer than [INT_MAX] *)

Lemma range_for_skip n acc : range_for (replicate n 1) acc = Some acc.
Proof.
  induction n as [|n IH]; [done|]. cbn [replicate range_for].
  destruct acc as [count maxValue]. cbn [visit mbind option_bind].
  exact IH.
Qed.

(** With one thread, [end] is the length narrowed to [int]; when that is
    not positive the worker scans nothing. *)
Lemma single_thread_no_scan data :
  to_int (Z.of_nat (length data)) ≤ 0 →
  (∀ order, lock_order 1 order →
            parallelWithMutex data 1 order = Some (0, INT_MIN)) ∧
  (∀ sched r, parallelWithCAS data 1 sched = Some r → r = (0, INT_MIN)) ∧
  (∃ sched, parallelWithCAS data 1 sched = Some (0, INT_MIN)).
Proof.
  intros Hend.
  assert (partitions (Z.of_nat (length data)) 1
          = Some [(0, to_int (Z.of_nat (length data)))]) as Hsecs by reflexivity.
  assert (scan_section 0 (to_int (Z.of_nat (length data))) data
          = Some (0, INT_MIN)) as Hscan.
  { unfold scan_section, iterations.
    by replace (Z.to_nat (to_int (Z.of_nat (length data)) - 0)) with 0%nat
      by lia. }
  assert (spawnCAS data 1 = Some (initial_state [(0, INT_MIN)])) as Hspawn.
  { unfold spawnCAS. rewrite Hsecs. cbn [mbind option_bind].
    unfold scan_sections. cbn [mapM fst snd]. by rewrite Hscan. }
  split; [|split].
  - intros order Horder. apply Permutation_singleton_r in Horder as ->.
    unfold parallelWithMutex. rewrite Hsecs.
    cbn [mbind option_bind critical_sections lookup list_lookup].
    unfold processSectionWithMutex. by rewrite Hscan.
  - intros sched r. unfold parallelWithCAS. rewrite Hspawn.
    cbn [mbind option_bind].
    destruct (run sched _) as [st|] eqn:Hrun; [|done]. cbn [mbind option_bind].
    destruct (joined st) eqn:Hj; [|done]. intros [= <-].
    by destruct (joined_result _ _ _ Hrun Hj) as [-> ->].
  - exists [FetchAdd 0; Load 0 INT_MIN; Return 0].
    unfold parallelWithCAS. by rewrite Hspawn.
Qed.

(** ** Runs without end *)

(** The first [k] steps of an unending run, from its state number [N]. *)
Lemma run_trace (trace : nat → state) (events : nat → event) :
  (∀ i, step (trace i) (events i) = Some (trace (S i))) →
  ∀ k N, run (events <$> seq N k) (trace N) = Some (trace (N + k)%nat).
Proof.
  intros Hstep. induction k as [|k IH]; intros N.
  - by rewrite Nat.add_0_r.
  - cbn [seq fmap list_fmap run]. rewrite Hstep. cbn [mbind option_bind].
    fold (fmap (M := list) events (seq (S N) k)).
    rewrite IH. by rewrite Nat.add_succ_r.
Qed.

Lemma spurious_somewhere sched :
  0 < spurious_failures sched →
  ∃ i e, sched !! i = Some e ∧ is_spurious e = true.
Proof.
  unfold spurious_failures.
  destruct (filter (λ e, is_spurious e = true) sched) as [|e l] eqn:E;
    [simpl; lia|].
  intros _.
  assert (e ∈ filter (λ e, is_spurious e = true) sched) as He
    by (rewrite E; left).
  apply list_elem_of_filter in He as [Hs He].
  apply list_elem_of_lookup_1 in He as [i Hi]. eauto.
Qed.

(** A run that never ends has spurious failures without end: the measure
    of the retry loops allows only so many other steps. *)
Lemma unending_run_spurious (trace : nat → state) (events : nat → event) :
  (∀ i, step (trace i) (events i) = Some (trace (S i))) →
  ∀ N, ∃ i, (N ≤ i)%nat ∧ is_spurious (events i) = true.
Proof.
  intros Hstep N.
  set (k := S (Z.to_nat (potential (trace N)))).
  pose proof (run_trace trace events Hstep k N) as Hrun.
  pose proof (run_potential _ _ _ Hrun) as Hpot.
  pose proof (potential_nonneg (trace (N + k)%nat)).
  pose proof (potential_nonneg (trace N)).
  rewrite length_fmap, length_seq in Hpot.
  destruct (spurious_somewhere (events <$> seq N k)) as (i & e & Hi & He);
    [lia|].
  rewrite list_lookup_fmap in Hi.
  destruct (seq N k !! i) as [j|] eqn:Hj; [|done].
  apply lookup_seq in Hj as [-> Hlt]. injection Hi as <-.
  exists (N + i)%nat. split; [lia|done].
Qed.

(** * Properties of the program *)

(** C1, as the code has it. For every dataset of [int]s whose length is
    an [int] value (at most [INT_MAX] elements, as the driver builds it)
    and every thread count [T ≥ 1] the three reducers return the same pair
    (count, maxValue): the mutex reducer whatever the order in which the
    workers take the lock, the lock-free reducer whatever the interleaving
    of the workers' steps; and every run of the lock-free reducer can be
    continued to one that returns. *)
Theorem reducers_agree data T :
  Dataset data → 1 ≤ T ≤ INT_MAX →
  ∃ r,
    linearExecution data = Some r ∧
    (∀ order, lock_order T order → parallelWithMutex data T order = Some r) ∧
    (∀ sched r', parallelWithCAS data T sched = Some r' → r' = r) ∧
    (∀ sched st, (spawnCAS data T ≫= run sched) = Some st →
                 ∃ more, spurious_failures more = 0 ∧
                         parallelWithCAS data T (sched ++ more) = Some r).
Proof.
  intros Hdata HT. exists (count_of data, max_of data).
  split; [|split; [|split]].
  - apply linearExecution_result. by apply Dataset_count.
  - intros order Horder. by apply parallelWithMutex_result.
  - intros sched r'. by apply parallelWithCAS_result.
  - intros sched st. by apply parallelWithCAS_completion.
Qed.

Lemma reducers_agree_witness :
  ∃ r,
    linearExecution [5; 3; 10; 22; 25; 7] = Some r ∧
    (∀ order, lock_order 3 order →
              parallelWithMutex [5; 3; 10; 22; 25; 7] 3 order = Some r) ∧
    (∀ sched r', parallelWithCAS [5; 3; 10; 22; 25; 7] 3 sched = Some r' → r' = r) ∧
    (∀ sched st, (spawnCAS [5; 3; 10; 22; 25; 7] 3 ≫= run sched) = Some st →
                 ∃ more, spurious_failures more = 0 ∧
                         parallelWithCAS [5; 3; 10; 22; 25; 7] 3 (sched ++ more)
                         = Some r).
Proof.
  apply (reducers_agree [5; 3; 10; 22; 25; 7] 3).
  - small_dataset.
  - unfold INT_MAX. lia.
Defined.

(** C1, as stated, fails for a dataset of more than [INT_MAX] elements:
    on a 5 followed by 2147483647 ones, [linearExecution] finds the 5,
    while with one thread [end] is the length narrowed to [int], which is
    [INT_MIN]: the worker of either parallel reducer scans nothing and the
    result is (0, [INT_MIN]). *)
Lemma reducers_disagree :
  linearExecution (5 :: replicate (Z.to_nat 2147483647) 1) = Some (1, 5) ∧
  (∀ order, lock_order 1 order →
            parallelWithMutex (5 :: replicate (Z.to_nat 2147483647) 1) 1 order
            = Some (0, INT_MIN)) ∧
  (∀ sched r,
     parallelWithCAS (5 :: replicate (Z.to_nat 2147483647) 1) 1 sched = Some r →
     r = (0, INT_MIN)) ∧
  (∃ sched,
     parallelWithCAS (5 :: replicate (Z.to_nat 2147483647) 1) 1 sched
     = Some (0, INT_MIN)).
Proof.
  generalize (Z2Nat.id 2147483647 ltac:(lia)).
  generalize (Z.to_nat 2147483647). intros n Hn.
  split.
  - unfold linearExecution. cbn [range_for]. apply range_for_skip.
  - apply single_thread_no_scan.
    cbn [length]. rewrite length_replicate, Nat2Z.inj_succ, Hn. done.
Qed.

(** C2. For every dataset [linearExecution] returns as count the number of
    elements divisible by 5 and as maxValue the greatest element divisible
    by 5; when no element is divisible by 5 the count is 0 and maxValue is
    the sentinel [INT_MIN]. *)
Theorem linearExecution_spec data :
  Dataset data →
  ∃ count maxValue,
    linearExecution data = Some (count, maxValue) ∧
    count = Z.of_nat (length (filter (λ v, Z.rem v 5 = 0) data)) ∧
    (count = 0 → maxValue = INT_MIN) ∧
    (count ≠ 0 → maxValue ∈ data ∧ Z.rem maxValue 5 = 0) ∧
    (∀ v, v ∈ data → Z.rem v 5 = 0 → v ≤ maxValue).
Proof.
  intros Hdata. exists (count_of data), (max_of data).
  pose proof (max_of_sentinel data (proj1 Hdata)) as Hs.
  split; [apply linearExecution_result; by apply Dataset_count|].
  split; [done|]. split; [tauto|]. split.
  - intros Hne. destruct (max_of_elem data) as [E|E]; tauto.
  - intros v. apply max_of_upper.
Qed.

Lemma linearExecution_spec_witness :
  ∃ count maxValue,
    linearExecution [5; 3; 10; 22; 25; 7] = Some (count, maxValue) ∧
    count = Z.of_nat (length (filter (λ v, Z.rem v 5 = 0) [5; 3; 10; 22; 25; 7])) ∧
    (count = 0 → maxValue = INT_MIN) ∧
    (count ≠ 0 → maxValue ∈ [5; 3; 10; 22; 25; 7] ∧ Z.rem maxValue 5 = 0) ∧
    (∀ v, v ∈ [5; 3; 10; 22; 25; 7] → Z.rem v 5 = 0 → v ≤ maxValue).
Proof.
  apply (linearExecution_spec [5; 3; 10; 22; 25; 7]).
  small_dataset.
Defined.

(** C3, as the code has it. For every length [L] and every thread count
    [T ≥ 1] that are [int] values the [T] sections the code computes are
    [t * c, t * c + c) with [c = L / T], the last one ending at [L]
    instead; they are contiguous, do not overlap and cover [0, L) exactly:
    the first starts at 0, each starts where the one before ends, the last
    ends at [L] whatever the remainder, and every index of [0, L) lies in a
    section and in one only. *)
Theorem partition_coverage L T :
  0 ≤ L ≤ INT_MAX → 1 ≤ T ≤ INT_MAX →
  ∃ secs,
    partitions L T = Some secs ∧
    length secs = Z.to_nat T ∧
    (∀ k, (k < Z.to_nat T)%nat →
          secs !! k = Some (Z.of_nat k * (L / T),
                            if Z.of_nat k =? T - 1 then L
                            else Z.of_nat k * (L / T) + L / T)) ∧
    (∃ e, secs !! 0%nat = Some (0, e)) ∧
    (∃ s, secs !! (Z.to_nat T - 1)%nat = Some (s, L)) ∧
    (∀ k s e, secs !! k = Some (s, e) → 0 ≤ s ∧ s ≤ e ∧ e ≤ L) ∧
    (∀ k s e s' e', secs !! k = Some (s, e) → secs !! S k = Some (s', e') →
                    e = s') ∧
    (∀ i, 0 ≤ i < L ↔ ∃ k s e, secs !! k = Some (s, e) ∧ s ≤ i < e) ∧
    (∀ i k1 k2 s1 e1 s2 e2,
       secs !! k1 = Some (s1, e1) → secs !! k2 = Some (s2, e2) →
       s1 ≤ i < e1 → s2 ≤ i < e2 → k1 = k2).
Proof.
  intros [HL HLmax] [HT HTmax]. exists (chunk_bounds L T <$> thread_ids T).
  split; [by apply partitions_result|].
  split; [by rewrite length_fmap, length_thread_ids|].
  split; [intros k Hk; by apply lookup_chunks|].
  split; [eexists; apply lookup_chunks; split; [lia|]; unfold chunk_bounds;
          simpl; reflexivity|].
  split.
  { eexists. apply lookup_chunks. split; [lia|]. unfold chunk_bounds.
    replace (Z.of_nat (Z.to_nat T - 1)) with (T - 1) by lia.
    by rewrite Z.eqb_refl. }
  split.
  { intros k s e [Hk Heq]%lookup_chunks.
    pose proof (chunk_bounds_ordered L T (Z.of_nat k)) as Ho.
    rewrite <- Heq in Ho. simpl in Ho. apply Ho; lia. }
  split.
  { intros k s e s' e' [Hk Heq]%lookup_chunks [Hk' Heq']%lookup_chunks.
    unfold chunk_bounds in *. simplify_eq/=.
    destruct (Z.eqb_spec (Z.of_nat k) (T - 1)); lia. }
  split.
  { intros i. split.
    - intros Hi. destruct (chunk_cover L T HL HT i Hi) as (t & Ht & Hin).
      exists (Z.to_nat t), (chunk_bounds L T t).1, (chunk_bounds L T t).2.
      split; [|done]. apply lookup_chunks. split; [lia|].
      rewrite Z2Nat.id by lia. by destruct (chunk_bounds L T t).
    - intros (k & s & e & [Hk Heq]%lookup_chunks & Hin).
      pose proof (chunk_bounds_ordered L T (Z.of_nat k)) as Ho.
      rewrite <- Heq in Ho. simpl in Ho. lia. }
  intros i k1 k2 s1 e1 s2 e2 [Hk1 Heq1]%lookup_chunks [Hk2 Heq2]%lookup_chunks H1 H2.
  apply Nat2Z.inj. apply (chunk_disjoint L T HL HT _ _ i); try lia.
  - by rewrite <- Heq1.
  - by rewrite <- Heq2.
Qed.

Lemma partition_coverage_witness :
  ∃ secs,
    partitions 7 3 = Some secs ∧
    length secs = Z.to_nat 3 ∧
    (∀ k, (k < Z.to_nat 3)%nat →
          secs !! k = Some (Z.of_nat k * (7 / 3),
                            if Z.of_nat k =? 3 - 1 then 7
                            else Z.of_nat k * (7 / 3) + 7 / 3)) ∧
    (∃ e, secs !! 0%nat = Some (0, e)) ∧
    (∃ s, secs !! (Z.to_nat 3 - 1)%nat = Some (s, 7)) ∧
    (∀ k s e, secs !! k = Some (s, e) → 0 ≤ s ∧ s ≤ e ∧ e ≤ 7) ∧
    (∀ k s e s' e', secs !! k = Some (s, e) → secs !! S k = Some (s', e') →
                    e = s') ∧
    (∀ i, 0 ≤ i < 7 ↔ ∃ k s e, secs !! k = Some (s, e) ∧ s ≤ i < e) ∧
    (∀ i k1 k2 s1 e1 s2 e2,
       secs !! k1 = Some (s1, e1) → secs !! k2 = Some (s2, e2) →
       s1 ≤ i < e1 → s2 ≤ i < e2 → k1 = k2).
Proof. apply (partition_coverage 7 3); unfold INT_MAX; lia. Defined.

(** C3, as stated, fails for a length that is no [int] value: with
    2147483648 elements and one thread, [end] is the length narrowed to
    [int], a negative number; the only section is empty, it does not end at
    the length, and index 0 lies in no section. *)
Lemma partitions_beyond_int :
  partitions 2147483648 1 = Some [(0, -2147483648)] ∧
  iterations 0 (-2147483648) = 0%nat ∧
  -2147483648 ≠ 2147483648 ∧
  ¬ ∃ k s e, [(0, -2147483648)] !! k = Some (s, e) ∧ s ≤ 0 < e.
Proof.
  split; [reflexivity|]. split; [reflexivity|]. split; [done|].
  intros (k & s & e & Hk & Hin). destruct k as [|k]; [|done].
  injection Hk as <- <-. lia.
Qed.

(** C4. The retry loop of [processSectionWithCAS] terminates. A run of [n]
    workers has at most [n * (3 + 2 * n)] steps, and two more for each
    exchange that fails although [atomicMax] holds the expected value, as
    [compare_exchange_weak] may now and then; a run that never ends would
    need such failures without end, and every run can be continued, without
    any, until all workers have returned. A step changes the shared maximum
    only by a successful exchange, which replaces it by the greater local
    maximum of the worker that makes it, one of finitely many candidates;
    and a worker whose local maximum does not exceed the maximum it observed
    can only leave the loop, without attempting the exchange and leaving the
    shared memory as it is. *)
Theorem cas_loop_bounded locals sched st :
  run sched (initial_state locals) = Some st →
  Z.of_nat (length sched) ≤
    Z.of_nat (length locals) * (3 + 2 * Z.of_nat (length locals))
    + 2 * spurious_failures sched ∧
  (∃ more st', run more st = Some st' ∧ spurious_failures more = 0 ∧
               joined st' = true) ∧
  (∀ e st',
     step st e = Some st' →
     atomicMax (shared st') = atomicMax (shared st) ∨
     (e = Exchange (actor e) ∧
      atomicMax (shared st) < atomicMax (shared st') ∧
      ∃ w, workers st !! actor e = Some w ∧ atomicMax (shared st') = localMax w)) ∧
  (∀ k w currentMax,
     workers st !! k = Some w → at_pc w = AtWhile currentMax →
     localMax w ≤ currentMax →
     step st (Return k) =
       Some (State (shared st) (<[k := goto w Finished]> (workers st))) ∧
     ∀ e, actor e = k → e ≠ Return k → step st e = None) ∧
  (∀ (trace : nat → state) (events : nat → event),
     trace 0%nat = st →
     (∀ i, step (trace i) (events i) = Some (trace (S i))) →
     ∀ N, ∃ i, (N ≤ i)%nat ∧ is_spurious (events i) = true).
Proof.
  intros Hrun. split; [by apply (run_length locals sched st)|].
  split; [|split; [|split]]; [| | |intros trace events _; apply unending_run_spurious].
  - apply (run_completion locals). by eapply invariant_run.
  - intros e st' Hstep.
    apply step_inv in Hstep as (w & w' & m' & Hw & Hstep & ->).
    apply worker_step_access in Hstep.
    destruct Hstep; simpl; eauto 10.
  - intros k w currentMax Hw Hpc Hle.
    assert ((localMax w >? currentMax) = false) as Hgt
      by (rewrite Z.gtb_ltb; apply Z.ltb_ge; lia).
    split.
    + apply (step_at st (Return k) w); [done|].
      unfold processSectionWithCAS. by rewrite Hpc, Hgt.
    + intros e He Hne. unfold step. rewrite He, Hw. simpl.
      unfold processSectionWithCAS. rewrite Hpc, Hgt.
      destruct e; simpl in *; try done. congruence.
Qed.

Lemma cas_loop_bounded_witness :
  Z.of_nat (length [FetchAdd 0; FetchAdd 1; Load 1 INT_MIN; Spurious 1;
                    Load 1 INT_MIN; Exchange 1; Load 0 25])
    ≤ Z.of_nat (length [(1, 5); (2, 25)])
      * (3 + 2 * Z.of_nat (length [(1, 5); (2, 25)]))
      + 2 * spurious_failures
              [FetchAdd 0; FetchAdd 1; Load 1 INT_MIN; Spurious 1;
               Load 1 INT_MIN; Exchange 1; Load 0 25] ∧
  (∃ more st',
     run more (State (Atomics 3 25 [INT_MIN])
                     [Worker 1 5 (AtWhile 25); Worker 2 25 Finished]) = Some st' ∧
     spurious_failures more = 0 ∧ joined st' = true) ∧
  (∀ e st',
     step (State (Atomics 3 25 [INT_MIN])
                 [Worker 1 5 (AtWhile 25); Worker 2 25 Finished]) e = Some st' →
     atomicMax (shared st') = 25 ∨
     (e = Exchange (actor e) ∧ 25 < atomicMax (shared st') ∧
      ∃ w, [Worker 1 5 (AtWhile 25); Worker 2 25 Finished] !! actor e = Some w ∧
           atomicMax (shared st') = localMax w)) ∧
  (∀ k w currentMax,
     [Worker 1 5 (AtWhile 25); Worker 2 25 Finished] !! k = Some w →
     at_pc w = AtWhile currentMax → localMax w ≤ currentMax →
     step (State (Atomics 3 25 [INT_MIN])
                 [Worker 1 5 (AtWhile 25); Worker 2 25 Finished]) (Return k) =
       Some (State (Atomics 3 25 [INT_MIN])
                   (<[k := goto w Finished]>
                      [Worker 1 5 (AtWhile 25); Worker 2 25 Finished])) ∧
     ∀ e, actor e = k → e ≠ Return k →
          step (State (Atomics 3 25 [INT_MIN])
                      [Worker 1 5 (AtWhile 25); Worker 2 25 Finished]) e = None) ∧
  (∀ (trace : nat → state) (events : nat → event),
     trace 0%nat = State (Atomics 3 25 [INT_MIN])
                         [Worker 1 5 (AtWhile 25); Worker 2 25 Finished] →
     (∀ i, step (trace i) (events i) = Some (trace (S i))) →
     ∀ N, ∃ i, (N ≤ i)%nat ∧ is_spurious (events i) = true).
Proof.
  apply (cas_loop_bounded [(1, 5); (2, 25)]
           [FetchAdd 0; FetchAdd 1; Load 1 INT_MIN; Spurious 1;
            Load 1 INT_MIN; Exchange 1; Load 0 25]
           (State (Atomics 3 25 [INT_MIN])
                  [Worker 1 5 (AtWhile 25); Worker 2 25 Finished])).
  reflexivity.
Defined.

(** C5. Whatever the interleaving of the workers of [parallelWithCAS], and
    whatever older values their relaxed loads return, once all of them have
    returned the shared maximum is the greatest of their local maxima, and
    the shared counter the (wrapped) sum of their counts: no update is
    lost. Every run can be continued until all have returned. *)
Theorem cas_max_not_lost locals sched st :
  locals ≠ [] → Forall (λ r, is_int r.2) locals →
  run sched (initial_state locals) = Some st →
  (joined st = true →
     (∀ k r, locals !! k = Some r → r.2 ≤ atomicMax (shared st)) ∧
     (∃ k r, locals !! k = Some r ∧ r.2 = atomicMax (shared st)) ∧
     atomicCount (shared st) = to_int (total_count locals)) ∧
  (∃ more st', run more st = Some st' ∧ joined st' = true).
Proof.
  intros Hne Hint Hrun. split.
  - intros Hj. destruct (joined_result _ _ _ Hrun Hj) as [Hc Hm]. rewrite Hm.
    split; [intros k r; apply total_max_upper|].
    split; [by apply total_max_attained|done].
  - destruct (run_completion locals st) as (more & st' & Hmore & _ & Hj);
      [by eapply invariant_run|eauto].
Qed.

Lemma cas_max_not_lost_witness :
  (joined (State (Atomics 3 25 [5; INT_MIN])
                 [Worker 1 5 Finished; Worker 2 25 Finished]) = true →
     (∀ k r, [(1, 5); (2, 25)] !! k = Some r → r.2 ≤ 25) ∧
     (∃ k r, [(1, 5); (2, 25)] !! k = Some r ∧ r.2 = 25) ∧
     3 = to_int (total_count [(1, 5); (2, 25)])) ∧
  (∃ more st',
     run more (State (Atomics 3 25 [5; INT_MIN])
                     [Worker 1 5 Finished; Worker 2 25 Finished])
     = Some st' ∧ joined st' = true).
Proof.
  apply (cas_max_not_lost [(1, 5); (2, 25)]
           [FetchAdd 1; FetchAdd 0; Load 1 INT_MIN; Load 0 INT_MIN;
            Exchange 0; Fail 1 5; Load 1 5; Spurious 1; Load 1 5; Exchange 1]
           (State (Atomics 3 25 [5; INT_MIN])
                  [Worker 1 5 Finished; Worker 2 25 Finished])).
  - discriminate.
  - repeat (constructor; [simpl; int_arith|]). constructor.
  - reflexivity.
Defined.

(** C6. For the empty dataset and every thread count [T ≥ 1] the three
    reducers return count 0 and maxValue [INT_MIN], and every one of the [T]
    sections is scanned in zero iterations: no element is compared. *)
Theorem empty_dataset T :
  1 ≤ T ≤ INT_MAX →
  linearExecution [] = Some (0, INT_MIN) ∧
  (∀ order, lock_order T order → parallelWithMutex [] T order = Some (0, INT_MIN)) ∧
  (∀ sched r, parallelWithCAS [] T sched = Some r → r = (0, INT_MIN)) ∧
  (∀ sched st, (spawnCAS [] T ≫= run sched) = Some st →
               ∃ more, spurious_failures more = 0 ∧
                       parallelWithCAS [] T (sched ++ more) = Some (0, INT_MIN)) ∧
  ∃ secs, partitions 0 T = Some secs ∧ length secs = Z.to_nat T ∧
          Forall (λ sec, iterations sec.1 sec.2 = 0%nat) secs.
Proof.
  intros HT. split; [done|]. split; [|split; [|split]].
  - intros order Horder. by rewrite (parallelWithMutex_result [] T order Dataset_nil).
  - intros sched r. by apply (parallelWithCAS_result [] T sched r Dataset_nil).
  - intros sched st. by apply (parallelWithCAS_completion [] T sched st Dataset_nil).
  - exists (chunk_bounds 0 T <$> thread_ids T).
    split; [apply partitions_result; unfold INT_MAX in *; lia|].
    split; [by rewrite length_fmap, length_thread_ids|].
    apply Forall_fmap, Forall_true. intros t. unfold compose.
    by rewrite chunk_bounds_empty.
Qed.

Lemma empty_dataset_witness :
  linearExecution [] = Some (0, INT_MIN) ∧
  (∀ order, lock_order 4 order → parallelWithMutex [] 4 order = Some (0, INT_MIN)) ∧
  (∀ sched r, parallelWithCAS [] 4 sched = Some r → r = (0, INT_MIN)) ∧
  (∀ sched st, (spawnCAS [] 4 ≫= run sched) = Some st →
               ∃ more, spurious_failures more = 0 ∧
                       parallelWithCAS [] 4 (sched ++ more) = Some (0, INT_MIN)) ∧
  ∃ secs, partitions 0 4 = Some secs ∧ length secs = Z.to_nat 4 ∧
          Forall (λ sec, iterations sec.1 sec.2 = 0%nat) secs.
Proof. apply (empty_dataset 4). unfold INT_MAX. lia. Defined.

(** C7. The aggregate does not depend on order. Scanning a permutation of
    the elements gives the same result, from any accumulator, in the linear
    reducer and in a section; merging is commutative and associative (counts
    are never negative); and the workers of the mutex reducer may take the
    lock in any order. *)
Theorem order_independence (data data' : list Z) (sec sec' : Z * Z)
    (a b c acc : Z * Z) (order order' : list nat) (secs : list (Z * Z)) :
  data ≡ₚ data' →
  in_bounds data sec → in_bounds data' sec' →
  slice data sec ≡ₚ slice data' sec' →
  0 ≤ a.1 → 0 ≤ b.1 → 0 ≤ c.1 →
  order ≡ₚ order' → 0 ≤ acc.1 →
  (∀ acc0, range_for data' acc0 = range_for data acc0) ∧
  linearExecution data' = linearExecution data ∧
  scan_section sec'.1 sec'.2 data' = scan_section sec.1 sec.2 data ∧
  merge a b = merge b a ∧
  (merge a b ≫= λ ab, merge ab c) = (merge b c ≫= λ bc, merge a bc) ∧
  critical_sections order' secs data acc = critical_sections order secs data acc.
Proof.
  intros Hdata Hsec Hsec' Hslice Ha Hb Hc Horder Hacc.
  split; [intros acc0; symmetry; by apply range_for_perm|].
  split; [symmetry; by apply range_for_perm|].
  split.
  { rewrite !scan_section_range by done. symmetry. by apply range_for_perm. }
  split; [apply merge_comm|].
  split; [by apply merge_assoc|].
  symmetry. by apply critical_sections_perm.
Qed.

Lemma order_independence_witness :
  (∀ acc0, range_for [3; 5; 10] acc0 = range_for [5; 3; 10] acc0) ∧
  linearExecution [3; 5; 10] = linearExecution [5; 3; 10] ∧
  scan_section (0, 2).1 (0, 2).2 [3; 5; 10] =
  scan_section (0, 2).1 (0, 2).2 [5; 3; 10] ∧
  merge (1, 5) (2, 25) = merge (2, 25) (1, 5) ∧
  (merge (1, 5) (2, 25) ≫= λ ab, merge ab (0, INT_MIN)) =
  (merge (2, 25) (0, INT_MIN) ≫= λ bc, merge (1, 5) bc) ∧
  critical_sections [1; 0]%nat [(0, 1); (1, 3)] [5; 3; 10] (0, INT_MIN) =
  critical_sections [0; 1]%nat [(0, 1); (1, 3)] [5; 3; 10] (0, INT_MIN).
Proof.
  apply (order_independence [5; 3; 10] [3; 5; 10] (0, 2) (0, 2)
           (1, 5) (2, 25) (0, INT_MIN) (0, INT_MIN) [0; 1]%nat [1; 0]%nat
           [(0, 1); (1, 3)]).
  - apply perm_swap.
  - unfold in_bounds. simpl. lia.
  - unfold in_bounds. simpl. lia.
  - apply perm_swap.
  - simpl. lia.
  - simpl. lia.
  - simpl. lia.
  - apply perm_swap.
  - simpl. lia.
Defined.


(** C9, as the code has it. [chunkSize] is the unguarded quotient
    [data.size() / numThreads]. With [numThreads ≥ 1] the division is
    defined, whatever the size. When the size is an [int] value besides,
    so are the sections, which lie within the dataset, and the scans of the
    sections: the mutex reducer has a result and the lock-free reducer
    spawns its workers. With [numThreads = 0] neither reducer has a defined
    result. *)
Theorem division_guarded data T :
  Dataset data → 1 ≤ T ≤ INT_MAX →
  (∀ size, is_Some (chunk_size size T)) ∧
  chunk_size (Z.of_nat (length data)) T = Some (Z.of_nat (length data) / T) ∧
  (∃ secs locals,
     partitions (Z.of_nat (length data)) T = Some secs ∧
     Forall (in_bounds data) secs ∧
     scan_sections data secs = Some locals) ∧
  (∀ order, lock_order T order → is_Some (parallelWithMutex data T order)) ∧
  is_Some (spawnCAS data T) ∧
  (∀ order sched,
     chunk_size (Z.of_nat (length data)) 0 = None ∧
     parallelWithMutex data 0 order = None ∧
     parallelWithCAS data 0 sched = None).
Proof.
  intros Hdata HT. pose proof Hdata as [Hint Hlen].
  split.
  { intros size. unfold chunk_size. rewrite to_size_t_id by lia.
    destruct (Z.eqb_spec T 0); [lia|by eexists]. }
  split; [apply chunk_size_result; lia|]. split; [|split; [|split]].
  - eexists _, _. split; [apply partitions_result; lia|].
    assert (Forall (in_bounds data)
              (chunk_bounds (Z.of_nat (length data)) T <$> thread_ids T)) as Hb
      by (apply chunk_bounds_in_bounds; lia).
    split; [done|]. by apply scan_sections_result.
  - intros order Horder. by rewrite parallelWithMutex_result.
  - by rewrite spawnCAS_result.
  - done.
Qed.

Lemma division_guarded_witness :
  (∀ size, is_Some (chunk_size size 4)) ∧
  chunk_size (Z.of_nat (length [5; 3; 10; 22; 25; 7])) 4 =
  Some (Z.of_nat (length [5; 3; 10; 22; 25; 7]) / 4) ∧
  (∃ secs locals,
     partitions (Z.of_nat (length [5; 3; 10; 22; 25; 7])) 4 = Some secs ∧
     Forall (in_bounds [5; 3; 10; 22; 25; 7]) secs ∧
     scan_sections [5; 3; 10; 22; 25; 7] secs = Some locals) ∧
  (∀ order, lock_order 4 order →
            is_Some (parallelWithMutex [5; 3; 10; 22; 25; 7] 4 order)) ∧
  is_Some (spawnCAS [5; 3; 10; 22; 25; 7] 4) ∧
  (∀ order sched,
     chunk_size (Z.of_nat (length [5; 3; 10; 22; 25; 7])) 0 = None ∧
     parallelWithMutex [5; 3; 10; 22; 25; 7] 0 order = None ∧
     parallelWithCAS [5; 3; 10; 22; 25; 7] 0 sched = None).
Proof.
  apply (division_guarded [5; 3; 10; 22; 25; 7] 4).
  - small_dataset.
  - unfold INT_MAX. lia.
Defined.

(** C9, as stated, fails for a size that is no [int] value: with
    4500000000 elements and three threads the division is defined, but
    [start + chunkSize] of the second worker is 3000000000, a signed
    overflow; neither parallel reducer has a defined result. *)
Lemma index_computation_overflows :
  chunk_size 4500000000 3 = Some 1500000000 ∧
  section_bounds 4500000000 3 1500000000 1 = None ∧
  partitions 4500000000 3 = None ∧
  (∀ data order, Z.of_nat (length data) = 4500000000 →
                 parallelWithMutex data 3 order = None) ∧
  (∀ data sched, Z.of_nat (length data) = 4500000000 →
                 parallelWithCAS data 3 sched = None).
Proof.
  split; [reflexivity|]. split; [reflexivity|]. split; [reflexivity|]. split.
  - intros data order Hlen. unfold parallelWithMutex. by rewrite Hlen.
  - intros data sched Hlen. unfold parallelWithCAS, spawnCAS. by rewrite Hlen.
Qed.

(** C10. For a dataset of [int]s and [T ≥ 1] the maxValue each reducer
    returns is the sentinel [INT_MIN] or an element of the dataset divisible
    by 5, and the count is 0 exactly when maxValue is the sentinel:
    [INT_MIN] is no multiple of 5. *)
Theorem max_sentinel_or_multiple data T :
  Dataset data → 1 ≤ T ≤ INT_MAX →
  ∃ r,
    linearExecution data = Some r ∧
    (∀ order, lock_order T order → parallelWithMutex data T order = Some r) ∧
    (∀ sched r', parallelWithCAS data T sched = Some r' → r' = r) ∧
    (∃ sched, parallelWithCAS data T sched = Some r) ∧
    (r.2 = INT_MIN ∨ (r.2 ∈ data ∧ Z.rem r.2 5 = 0)) ∧
    (r.1 = 0 ↔ r.2 = INT_MIN) ∧
    Z.rem INT_MIN 5 ≠ 0.
Proof.
  intros Hdata HT. exists (count_of data, max_of data).
  split; [apply linearExecution_result; by apply Dataset_count|].
  split; [intros order Horder; by apply parallelWithMutex_result|].
  split; [intros sched r'; by apply parallelWithCAS_result|].
  split.
  { destruct (parallelWithCAS_completion data T [] (initial_state
                (local_results data
                   (chunk_bounds (Z.of_nat (length data)) T <$> thread_ids T))))
      as (more & _ & Hmore); [done|done| |eauto].
    by rewrite spawnCAS_result. }
  split; [apply max_of_elem|].
  split; [apply max_of_sentinel, Hdata|apply INT_MIN_rem].
Qed.

Lemma max_sentinel_or_multiple_witness :
  ∃ r,
    linearExecution [7; -2147483648; 15] = Some r ∧
    (∀ order, lock_order 2 order →
              parallelWithMutex [7; -2147483648; 15] 2 order = Some r) ∧
    (∀ sched r', parallelWithCAS [7; -2147483648; 15] 2 sched = Some r' → r' = r) ∧
    (∃ sched, parallelWithCAS [7; -2147483648; 15] 2 sched = Some r) ∧
    (r.2 = INT_MIN ∨ (r.2 ∈ [7; -2147483648; 15] ∧ Z.rem r.2 5 = 0)) ∧
    (r.1 = 0 ↔ r.2 = INT_MIN) ∧
    Z.rem INT_MIN 5 ≠ 0.
Proof.
  apply (max_sentinel_or_multiple [7; -2147483648; 15] 2).
  - small_dataset.
  - unfold INT_MAX. lia.
Defined.

(** * Further properties *)

(** ** The scan on every input *)

Lemma range_for_app data1 data2 acc :
  range_for (data1 ++ data2) acc = range_for data1 acc ≫= range_for data2.
Proof.
  revert acc. induction data1 as [|v data1 IH]; intros acc; [done|].
  cbn [app range_for]. destruct (visit v acc) as [acc'|]; [apply IH|done].
Qed.

(** The scan is undefined as soon as the count leaves [int]. *)
Lemma range_for_overflow data count maxValue :
  count ≤ INT_MAX → INT_MAX < count + count_of data →
  range_for data (count, maxValue) = None.
Proof.
  revert count maxValue. induction data as [|v data IH]; intros c m Hc Hs.
  - unfold count_of in Hs. simpl in Hs. lia.
  - change (v :: data) with ([v] ++ data) in Hs. rewrite count_of_app in Hs.
    unfold count_of in Hs at 1. rewrite multiples_cons in Hs.
    cbn [range_for]. unfold visit.
    destruct (Z.eqb_spec (Z.rem v 5) 0) as [E|E].
    + rewrite decide_True in Hs by done. simpl in Hs.
      destruct (checked_spec (c + 1)) as [[Hint ->]|[Hint ->]]; [|done].
      simpl. apply IH; [int_arith|lia].
    + rewrite decide_False in Hs by done. simpl in Hs. simpl.
      apply IH; [done|lia].
Qed.

Lemma linearExecution_cases data :
  linearExecution data =
  if decide (count_of data ≤ INT_MAX) then Some (count_of data, max_of data)
  else None.
Proof.
  destruct (decide _) as [H|H]; [by apply linearExecution_result|].
  apply range_for_overflow; unfold INT_MAX in *; lia.
Qed.

Lemma merge_cases a b :
  merge a b =
  if decide (is_int (a.1 + b.1)) then Some (a.1 + b.1, Z.max a.2 b.2) else None.
Proof.
  destruct a as [ca ma], b as [cb mb]. unfold merge. simpl.
  destruct (checked_spec (ca + cb)) as [[Hint ->]|[Hint ->]].
  - rewrite decide_True by done. simpl. by rewrite gtb_max.
  - by rewrite decide_False.
Qed.

Lemma index_for_out_of_range n i data acc :
  (0 < n)%nat → i < 0 ∨ (length data < Z.to_nat i + n)%nat →
  index_for n i data acc = None.
Proof.
  revert i acc. induction n as [|n IH]; intros i acc Hn Hout; [lia|].
  cbn [index_for]. unfold subscript.
  destruct (Z.ltb_spec i 0) as [Hi|Hi]; [done|].
  destruct Hout as [Hout|Hout]; [lia|].
  destruct (data !! Z.to_nat i) as [v|] eqn:Hv; [|done].
  apply lookup_lt_Some in Hv. simpl.
  destruct (visit v acc) as [acc'|]; [simpl|done].
  apply IH; [lia|]. right. lia.
Qed.

(** X1. The section loop of [processSectionWithMutex] and
    [processSectionWithCAS] at its bounds: a section with [end <= start]
    reads nothing and gives (0, [INT_MIN]), wherever it lies; a section
    within the dataset gives what [linearExecution] gives on its elements; a
    non-empty section that starts below 0 or ends past the dataset is
    undefined, the subscript being unchecked. *)
Theorem scan_section_bounds start end_ data :
  (end_ ≤ start → scan_section start end_ data = Some (0, INT_MIN)) ∧
  (0 ≤ start ≤ end_ → end_ ≤ Z.of_nat (length data) →
   scan_section start end_ data = linearExecution (slice data (start, end_))) ∧
  (start < end_ → start < 0 ∨ Z.of_nat (length data) < end_ →
   scan_section start end_ data = None).
Proof.
  split; [|split].
  - intros H. unfold scan_section, iterations.
    by replace (Z.to_nat (end_ - start)) with 0%nat by lia.
  - intros H Hlen. apply (scan_section_range data (start, end_)).
    unfold in_bounds. simpl. lia.
  - intros H Hout. unfold scan_section, iterations.
    apply index_for_out_of_range; [lia|].
    destruct Hout as [Hout|Hout]; [by left|].
    destruct (decide (start < 0)); [by left|right; lia].
Qed.

(** X2. Scanning a concatenation is merging the scans of its parts, as the
    critical section of [processSectionWithMutex] merges: [linearExecution]
    is a homomorphism from datasets under [++] to results under [merge],
    undefined cases included, and the empty scan (0, [INT_MIN]) is neutral
    for [merge]. *)
Theorem scan_concat data1 data2 :
  linearExecution (data1 ++ data2) =
    (r1 ← linearExecution data1; r2 ← linearExecution data2; merge r1 r2) ∧
  (∀ r, linearExecution data1 = Some r →
        merge (0, INT_MIN) r = Some r ∧ merge r (0, INT_MIN) = Some r).
Proof.
  pose proof (count_of_nonneg data1) as H1.
  pose proof (count_of_nonneg data2) as H2.
  pose proof (max_of_ge data1) as Hm.
  split.
  - rewrite !linearExecution_cases, count_of_app, max_of_app.
    destruct (decide (count_of data1 ≤ INT_MAX)) as [Hc1|Hc1];
      cbn [mbind option_bind].
    + destruct (decide (count_of data2 ≤ INT_MAX)) as [Hc2|Hc2];
        cbn [mbind option_bind].
      * rewrite merge_cases. cbn [fst snd].
        destruct (decide (count_of data1 + count_of data2 ≤ INT_MAX)).
        -- rewrite decide_True by int_arith. done.
        -- rewrite decide_False by int_arith. done.
      * rewrite decide_False by lia. done.
    + rewrite decide_False by lia. done.
  - intros r. rewrite linearExecution_cases.
    destruct (decide _) as [Hc|]; [|done]. intros [= <-].
    rewrite !merge_cases. simpl.
    rewrite !decide_True by int_arith.
    split; do 2 f_equal; lia.
Qed.

Lemma multiples_idemp data : multiples (multiples data) = multiples data.
Proof.
  induction data as [|v data IH]; [done|]. rewrite multiples_cons.
  destruct (decide (Z.rem v 5 = 0)) as [E|E]; [|done].
  by rewrite multiples_cons, decide_True, IH.
Qed.

(** X3. [linearExecution] never looks at more than the multiples of 5:
    two datasets with the same multiples of 5, in the same order, have the
    same result; so has a dataset and the list of its multiples of 5. *)
Theorem only_multiples_count data data' :
  multiples data = multiples data' →
  linearExecution data = linearExecution data' ∧
  linearExecution (multiples data) = linearExecution data.
Proof.
  intros H. rewrite !linearExecution_cases. unfold count_of, max_of.
  rewrite multiples_idemp, H. done.
Qed.

Lemma only_multiples_count_witness :
  linearExecution [5; 3; 10; 22; 25; 7] = linearExecution [1; 5; 10; 25] ∧
  linearExecution (multiples [5; 3; 10; 22; 25; 7])
  = linearExecution [5; 3; 10; 22; 25; 7].
Proof. apply (only_multiples_count [5; 3; 10; 22; 25; 7] [1; 5; 10; 25]). reflexivity. Defined.

(** ** Partitioning at its limits *)

Lemma iterations_chunk L T t :
  0 ≤ L → 1 ≤ T → 0 ≤ t < T →
  Z.of_nat (iterations (chunk_bounds L T t).1 (chunk_bounds L T t).2) =
  if decide (t = T - 1) then L / T + L `mod` T else L / T.
Proof.
  intros HL HT Ht. destruct (chunk_facts L T t HL HT Ht) as (Hc & Hs & He).
  pose proof (Z.div_mod L T ltac:(lia)) as Hdiv.
  unfold chunk_bounds, iterations. cbn [fst snd].
  destruct (Z.eqb_spec t (T - 1)) as [->|Hne].
  - rewrite decide_True by done.
    assert ((T - 1) * (L / T) = T * (L / T) - L / T) as -> by lia. lia.
  - rewrite decide_False by done. lia.
Qed.

Lemma sum_chunks L T n :
  0 ≤ L → 1 ≤ T → (n ≤ Z.to_nat T - 1)%nat →
  sum_list_with (λ sec, iterations sec.1 sec.2)
                (chunk_bounds L T <$> (Z.of_nat <$> seq 0 n))
  = (n * Z.to_nat (L / T))%nat.
Proof.
  intros HL HT. induction n as [|n IH]; intros Hn; [done|].
  rewrite seq_S, !fmap_app, sum_list_with_app, IH by lia.
  cbn [fmap list_fmap sum_list_with plus].
  pose proof (iterations_chunk L T (Z.of_nat n) HL HT ltac:(lia)) as Hit.
  rewrite decide_False in Hit by lia. lia.
Qed.

(** X4. How [parallelWithMutex] and [parallelWithCAS] share out the work:
    every worker but the last scans exactly [L / T] elements, the last one
    [L / T + L mod T]; the workers scan [L] elements in all; and with more
    workers than elements every worker but the last gets the empty section
    (0, 0), the last one the whole dataset. *)
Theorem section_sizes L T :
  0 ≤ L ≤ INT_MAX → 1 ≤ T ≤ INT_MAX →
  ∃ secs,
    partitions L T = Some secs ∧
    (∀ k sec, secs !! k = Some sec → Z.of_nat k < T - 1 →
              Z.of_nat (iterations sec.1 sec.2) = L / T) ∧
    (∀ k sec, secs !! k = Some sec → Z.of_nat k = T - 1 →
              Z.of_nat (iterations sec.1 sec.2) = L / T + L `mod` T) ∧
    sum_list_with (λ sec, iterations sec.1 sec.2) secs = Z.to_nat L ∧
    (L < T → ∀ k sec, secs !! k = Some sec →
             sec = if decide (Z.of_nat k = T - 1) then (0, L) else (0, 0)).
Proof.
  intros HL HT. exists (chunk_bounds L T <$> thread_ids T).
  split; [by apply partitions_result|].
  split; [|split; [|split]].
  - intros k sec [Hk ->]%lookup_chunks Hlt.
    rewrite iterations_chunk by lia. by rewrite decide_False by lia.
  - intros k sec [Hk ->]%lookup_chunks Hlast.
    rewrite iterations_chunk by lia. by rewrite decide_True by lia.
  - unfold thread_ids.
    replace (Z.to_nat T) with (S (Z.to_nat T - 1)) at 1 by lia.
    rewrite seq_S, !fmap_app, sum_list_with_app, sum_chunks by lia.
    cbn [fmap list_fmap sum_list_with plus].
    pose proof (iterations_chunk L T (Z.of_nat (Z.to_nat T - 1))
                  ltac:(lia) ltac:(lia) ltac:(lia)) as Hit.
    rewrite decide_True in Hit by lia.
    pose proof (Z.div_mod L T ltac:(lia)) as Hdiv.
    pose proof (Z.div_pos L T ltac:(lia) ltac:(lia)) as Hc.
    apply Nat2Z.inj.
    rewrite Nat.add_0_r, Nat2Z.inj_add, Nat2Z.inj_mul, Hit, !Z2Nat.id by lia.
    replace (Z.of_nat (Z.to_nat T - 1)) with (T - 1) by lia.
    assert ((T - 1) * (L / T) = T * (L / T) - L / T) as -> by lia. lia.
  - intros Hlt k sec [Hk ->]%lookup_chunks.
    unfold chunk_bounds. rewrite Z.div_small by lia.
    rewrite Z.mul_0_r.
    destruct (Z.eqb_spec (Z.of_nat k) (T - 1)).
    + by rewrite decide_True.
    + by rewrite decide_False.
Qed.

Lemma section_sizes_witness :
  ∃ secs,
    partitions 10 4 = Some secs ∧
    (∀ k sec, secs !! k = Some sec → Z.of_nat k < 4 - 1 →
              Z.of_nat (iterations sec.1 sec.2) = 10 / 4) ∧
    (∀ k sec, secs !! k = Some sec → Z.of_nat k = 4 - 1 →
              Z.of_nat (iterations sec.1 sec.2) = 10 / 4 + 10 `mod` 4) ∧
    sum_list_with (λ sec, iterations sec.1 sec.2) secs = Z.to_nat 10 ∧
    (10 < 4 → ∀ k sec, secs !! k = Some sec →
              sec = if decide (Z.of_nat k = 4 - 1) then (0, 10) else (0, 0)).
Proof. apply (section_sizes 10 4); unfold INT_MAX; lia. Defined.

Lemma merge_neutral data r :
  linearExecution data = Some r →
  merge (0, INT_MIN) r = Some r ∧ merge r (0, INT_MIN) = Some r.
Proof.
  rewrite linearExecution_cases.
  destruct (decide _) as [Hc|]; [|done]. intros [= <-].
  pose proof (count_of_nonneg data). pose proof (max_of_ge data).
  rewrite !merge_cases. cbn [fst snd].
  rewrite !decide_True by int_arith.
  split; do 2 f_equal; lia.
Qed.

Lemma to_int_le z : 0 ≤ z → to_int z ≤ z.
Proof.
  intros Hz. unfold to_int.
  pose proof (Z.mod_le (z + 2147483648) 4294967296 ltac:(lia) ltac:(lia)). lia.
Qed.

(** The section [0, end) is a prefix of the dataset. *)
Lemma scan_prefix data end_ :
  end_ ≤ Z.of_nat (length data) →
  scan_section 0 end_ data = linearExecution (take (Z.to_nat end_) data).
Proof.
  intros He. destruct (decide (end_ ≤ 0)) as [Hneg|Hpos].
  - unfold scan_section, iterations.
    replace (Z.to_nat (end_ - 0)) with 0%nat by lia.
    by replace (Z.to_nat end_) with 0%nat by lia.
  - etrans; [apply (scan_section_range data (0, end_))|].
    + unfold in_bounds. cbn [fst snd]. lia.
    + unfold slice, iterations. cbn [fst snd]. by rewrite Z.sub_0_r.
Qed.

Lemma partitions_single size : partitions size 1 = Some [(0, to_int size)].
Proof. reflexivity. Qed.

Lemma spawnCAS_single data :
  spawnCAS data 1 =
  r ← linearExecution
         (take (Z.to_nat (to_int (Z.of_nat (length data)))) data);
  Some (initial_state [r]).
Proof.
  unfold spawnCAS. rewrite partitions_single.
  cbn [mbind option_bind]. unfold scan_sections.
  cbn [mapM fst snd]. rewrite scan_prefix by (apply to_int_le; lia).
  by destruct (linearExecution _).
Qed.

Lemma joined_single r sched st :
  is_int r.1 → INT_MIN ≤ r.2 →
  run sched (initial_state [r]) = Some st → joined st = true →
  (atomicCount (shared st), atomicMax (shared st)) = r.
Proof.
  intros Hc Hm Hrun Hj.
  destruct (joined_result _ _ _ Hrun Hj) as [-> ->].
  destruct r as [c m]. unfold total_count, total_max. cbn [foldr fst snd] in *.
  rewrite Z.add_0_r, to_int_id by done. f_equal. lia.
Qed.

(** X5. With one thread the parallel reducers are the linear reducer on
    the first [(int) data.size()] elements: [end] is [data.size()] narrowed
    to [int]. That prefix is the whole dataset when the size is at most
    [INT_MAX], and a proper prefix when it is greater. *)
Theorem single_thread data :
  (∀ order, lock_order 1 order →
     parallelWithMutex data 1 order =
     linearExecution (take (Z.to_nat (to_int (Z.of_nat (length data)))) data)) ∧
  (∀ sched r,
     parallelWithCAS data 1 sched = Some r →
     linearExecution (take (Z.to_nat (to_int (Z.of_nat (length data)))) data)
     = Some r) ∧
  (∀ r,
     linearExecution (take (Z.to_nat (to_int (Z.of_nat (length data)))) data)
     = Some r →
     ∃ sched, parallelWithCAS data 1 sched = Some r) ∧
  (Z.of_nat (length data) ≤ INT_MAX →
   take (Z.to_nat (to_int (Z.of_nat (length data)))) data = data) ∧
  (INT_MAX < Z.of_nat (length data) →
   (Z.to_nat (to_int (Z.of_nat (length data))) < length data)%nat).
Proof.
  pose proof (to_int_le (Z.of_nat (length data)) ltac:(lia)) as Hle.
  split; [|split; [|split; [|split]]].
  - intros order Horder. apply Permutation_singleton_r in Horder as ->.
    unfold parallelWithMutex. rewrite partitions_single.
    cbn [mbind option_bind critical_sections lookup list_lookup].
    unfold processSectionWithMutex. rewrite scan_prefix by done.
    destruct (linearExecution _) as [r|] eqn:E; [|done].
    cbn [mbind option_bind].
    destruct (merge_neutral _ _ E) as [-> _]. done.
  - intros sched r. unfold parallelWithCAS. rewrite spawnCAS_single.
    destruct (linearExecution _) as [r0|] eqn:E; [|done].
    cbn [mbind option_bind].
    destruct (run sched _) as [st|] eqn:Hrun; [|done]. cbn [mbind option_bind].
    destruct (joined st) eqn:Hj; [|done]. intros [= <-]. f_equal.
    rewrite linearExecution_cases in E.
    destruct (decide _) as [Hc|]; [|done]. injection E as <-.
    pose proof (count_of_nonneg (take (Z.to_nat (to_int (Z.of_nat (length data)))) data)).
    symmetry. eapply joined_single; [| |done..].
    + cbn [fst]. int_arith.
    + apply max_of_ge.
  - intros r E. unfold parallelWithCAS. rewrite spawnCAS_single, E.
    cbn [mbind option_bind].
    destruct (run_completion [r] (initial_state [r]) (invariant_initial [r]))
      as (s & st & Hrun & _ & Hj).
    exists s. rewrite Hrun. cbn [mbind option_bind]. rewrite Hj. f_equal.
    rewrite linearExecution_cases in E.
    destruct (decide _) as [Hc|]; [|done]. injection E as <-.
    pose proof (count_of_nonneg (take (Z.to_nat (to_int (Z.of_nat (length data)))) data)).
    eapply joined_single; [| |done..].
    + cbn [fst]. int_arith.
    + apply max_of_ge.
  - intros Hmax. rewrite to_int_id by int_arith.
    apply take_ge. lia.
  - intros Hmax.
    assert (to_int (Z.of_nat (length data)) ≤ INT_MAX); [|int_arith].
    unfold to_int, INT_MAX.
    pose proof (Z.mod_pos_bound (Z.of_nat (length data) + 2147483648) 4294967296
                  ltac:(lia)). lia.
Qed.

(** X6. A negative number of threads is no error in [parallelWithMutex] and
    [parallelWithCAS]: the divisor converts to a large [size_t], the loop
    over [t] spawns no worker, and the result is (0, [INT_MIN]) whatever the
    dataset holds; it is not the result of [linearExecution] as soon as the
    dataset has a multiple of 5. *)
Theorem negative_thread_count data T :
  INT_MIN ≤ T < 0 →
  (∀ order, lock_order T order →
            parallelWithMutex data T order = Some (0, INT_MIN)) ∧
  parallelWithCAS data T [] = Some (0, INT_MIN) ∧
  (∀ sched r, parallelWithCAS data T sched = Some r → r = (0, INT_MIN)) ∧
  (count_of data ≠ 0 → linearExecution data ≠ Some (0, INT_MIN)).
Proof.
  intros HT.
  assert (partitions (Z.of_nat (length data)) T = Some []) as Hsecs.
  { unfold partitions, chunk_size, thread_ids.
    replace (Z.to_nat T) with 0%nat by lia.
    destruct (Z.eqb_spec (to_size_t T) 0) as [E|E]; [|done].
    unfold to_size_t, INT_MIN in *.
    rewrite <- (Z_mod_plus_full T 1), Z.mod_small in E; lia. }
  assert (spawnCAS data T = Some (initial_state [])) as Hspawn.
  { unfold spawnCAS. by rewrite Hsecs. }
  split; [|split; [|split]].
  - intros order Horder. unfold lock_order in Horder.
    replace (Z.to_nat T) with 0%nat in Horder by lia.
    apply Permutation_nil_r in Horder as ->.
    unfold parallelWithMutex. by rewrite Hsecs.
  - unfold parallelWithCAS. by rewrite Hspawn.
  - intros sched r. unfold parallelWithCAS. rewrite Hspawn.
    destruct sched as [|e sched]; [by intros [= <-]|].
    cbn [mbind option_bind run]. unfold step, initial_state.
    cbn [workers fmap list_fmap]. by rewrite lookup_nil.
  - intros Hc. rewrite linearExecution_cases.
    destruct (decide _); [|done]. intros [= E _]. done.
Qed.

Lemma negative_thread_count_witness :
  (∀ order, lock_order (-1) order →
            parallelWithMutex [5; 10] (-1) order = Some (0, INT_MIN)) ∧
  parallelWithCAS [5; 10] (-1) [] = Some (0, INT_MIN) ∧
  (∀ sched r, parallelWithCAS [5; 10] (-1) sched = Some r → r = (0, INT_MIN)) ∧
  (count_of [5; 10] ≠ 0 → linearExecution [5; 10] ≠ Some (0, INT_MIN)).
Proof. apply (negative_thread_count [5; 10] (-1)). unfold INT_MIN. lia. Defined.

(** ** The lock-free reducer: the writes of [atomicMax] *)

Lemma returned_insert ws k w w' :
  ws !! k = Some w →
  returned (<[k := w']> ws) =
  returned ws - (if finished w then 1 else 0) + (if finished w' then 1 else 0).
Proof. intros H. unfold returned. by rewrite (sum_over_insert _ _ _ _ _ H). Qed.

Lemma returned_bounds ws : 0 ≤ returned ws ≤ Z.of_nat (length ws).
Proof.
  unfold returned, sum_over. induction ws as [|w ws IH]; [done|].
  cbn [foldr length]. destruct (finished w); lia.
Qed.

Lemma writes_initial locals : writes_invariant locals (initial_state locals).
Proof.
  split; simpl.
  - repeat constructor.
  - done.
  - intros h [?%elem_of_nil| ->]; [done|by left].
  - apply returned_bounds.
Qed.

Lemma writes_step locals st e st' :
  invariant locals st → writes_invariant locals st → step st e = Some st' →
  writes_invariant locals st'.
Proof.
  intros Hinv [Hsorted Hfirst Horigin Hcount] Hstep.
  apply step_inv in Hstep as (w & w' & m' & Hw & Hstep & ->).
  apply worker_step_access in Hstep.
  pose proof (returned_insert _ _ _ w' Hw) as Hret.
  unfold finished in Hret.
  destruct Hstep as [k Hpc|k seen v Hpc Hin Hle|k currentMax Hpc Hle|k Hpc Hlt
                    |k currentMax v Hpc Hlt Hin Hne|k currentMax Hpc Hlt];
    rewrite Hpc in Hret; cbn [goto at_pc] in Hret;
    split; cbn [shared workers atomicMax overwritten history actor] in *;
    try done; try lia.
  - unfold history in *. constructor; [done|].
    apply StronglySorted_inv in Hsorted as [_ Hall].
    constructor; [done|]. eapply Forall_impl; [exact Hall|]. simpl. lia.
  - intros h [[->|Hh]%elem_of_cons| ->].
    + apply Horigin. by right.
    + apply Horigin. by left.
    + right. exists k, (localCount w, localMax w). split; [|done].
      rewrite <- (inv_results _ _ Hinv). by apply lookup_results_of.
  - cbn [length]. lia.
Qed.

Lemma writes_run locals sched st :
  run sched (initial_state locals) = Some st →
  invariant locals st ∧ writes_invariant locals st.
Proof.
  apply (run_invariant (λ st, invariant locals st ∧ writes_invariant locals st)).
  - intros st0 e st1 [Hinv Hwr] Hstep. split.
    + by eapply invariant_step.
    + by eapply writes_step.
  - split; [apply invariant_initial|apply writes_initial].
Qed.

Lemma step_history st e st' :
  step st e = Some st' → history (shared st) `suffix_of` history (shared st').
Proof.
  intros Hstep. apply step_inv in Hstep as (w & w' & m' & Hw & Hstep & ->).
  apply worker_step_access in Hstep.
  destruct Hstep; cbn [shared history atomicMax overwritten]; try done.
  apply suffix_cons_r. done.
Qed.

Lemma run_history sched st st' :
  run sched st = Some st' → history (shared st) `suffix_of` history (shared st').
Proof.
  revert st. induction sched as [|e sched IH]; intros st; cbn [run].
  - by intros [= <-].
  - destruct (step st e) as [st1|] eqn:E; [|done]. cbn [mbind option_bind].
    intros Hrun. etrans; [by eapply step_history|by apply IH].
Qed.

(** X7. The writes of [atomicMax] along the runs of the workers of
    [processSectionWithCAS]: the values it has held are strictly
    increasing, from the initial [INT_MIN] on; each later one is the local
    maximum of a worker; there are no more writes than workers that have
    returned; and a run from the state reached only adds to them: nothing
    written is lost, and [atomicMax] never decreases. *)
Theorem atomicMax_writes locals sched st :
  run sched (initial_state locals) = Some st →
  StronglySorted (λ newer older, older < newer) (history (shared st)) ∧
  last (history (shared st)) = Some INT_MIN ∧
  (∀ h, h ∈ history (shared st) →
        h = INT_MIN ∨ ∃ k r, locals !! k = Some r ∧ r.2 = h) ∧
  Z.of_nat (length (overwritten (shared st))) ≤ returned (workers st) ∧
  returned (workers st) ≤ Z.of_nat (length locals) ∧
  (∀ more st', run more st = Some st' →
               history (shared st) `suffix_of` history (shared st') ∧
               atomicMax (shared st) ≤ atomicMax (shared st')).
Proof.
  intros Hrun. destruct (writes_run _ _ _ Hrun) as [Hinv Hwr].
  split; [apply Hwr|]. split; [apply Hwr|]. split; [|split; [apply Hwr|split]].
  - intros h [->|Hh]%elem_of_cons; apply (wr_origin _ _ Hwr); auto.
  - rewrite <- (inv_results _ _ Hinv). unfold results_of.
    rewrite length_fmap. apply returned_bounds.
  - intros more st' Hmore. pose proof (run_history _ _ _ Hmore) as Hsuf.
    split; [done|].
    assert (run (sched ++ more) (initial_state locals) = Some st') as Hall.
    { rewrite run_app, Hrun. done. }
    destruct (writes_run _ _ _ Hall) as [_ Hwr'].
    pose proof (wr_sorted _ _ Hwr') as Hsorted.
    destruct Hsuf as [pre Hpre]. unfold history in *.
    destruct pre as [|x pre]; [by injection Hpre as -> _|].
    injection Hpre as _ Hpre. rewrite Hpre in Hsorted.
    apply StronglySorted_inv in Hsorted as [_ Hall'].
    rewrite Forall_forall in Hall'.
    assert (atomicMax (shared st) < atomicMax (shared st')); [|lia].
    apply Hall'. apply elem_of_app. right. left.
Qed.

Lemma atomicMax_writes_witness :
  StronglySorted (λ newer older, older < newer)
    (history (Atomics 3 25 [5; INT_MIN])) ∧
  last (history (Atomics 3 25 [5; INT_MIN])) = Some INT_MIN ∧
  (∀ h, h ∈ history (Atomics 3 25 [5; INT_MIN]) →
        h = INT_MIN ∨ ∃ k r, [(1, 5); (2, 25)] !! k = Some r ∧ r.2 = h) ∧
  Z.of_nat (length (overwritten (Atomics 3 25 [5; INT_MIN])))
  ≤ returned [Worker 1 5 Finished; Worker 2 25 Finished] ∧
  returned [Worker 1 5 Finished; Worker 2 25 Finished]
  ≤ Z.of_nat (length [(1, 5); (2, 25)]) ∧
  (∀ more st',
     run more (State (Atomics 3 25 [5; INT_MIN])
                     [Worker 1 5 Finished; Worker 2 25 Finished]) = Some st' →
     history (Atomics 3 25 [5; INT_MIN]) `suffix_of` history (shared st') ∧
     25 ≤ atomicMax (shared st')).
Proof.
  apply (atomicMax_writes [(1, 5); (2, 25)]
           [FetchAdd 0; Load 0 INT_MIN; Exchange 0;
            FetchAdd 1; Load 1 INT_MIN; Fail 1 5; Load 1 5; Exchange 1]
           (State (Atomics 3 25 [5; INT_MIN])
                  [Worker 1 5 Finished; Worker 2 25 Finished])).
  reflexivity.
Defined.

(** ** What an observer sees before the join *)

Lemma elem_of_slice v data sec : v ∈ slice data sec → v ∈ data.
Proof.
  unfold slice. intros Hv.
  by apply (subseteq_drop (Z.to_nat sec.1) data), (subseteq_take _ _ _ Hv).
Qed.

(** A local maximum is the sentinel or a multiple of 5 of the dataset. *)
Lemma local_origin data secs r :
  r ∈ local_results data secs →
  r.2 = INT_MIN ∨ (r.2 ∈ data ∧ Z.rem r.2 5 = 0).
Proof.
  unfold local_results. intros (sec & -> & _)%list_elem_of_fmap. cbn [snd].
  destruct (max_of_elem (slice data sec)) as [E|[E Hrem]]; [by left|right].
  split; [by eapply elem_of_slice|done].
Qed.

Lemma total_max_origin locals :
  total_max locals = INT_MIN ∨ ∃ r, r ∈ locals ∧ r.2 = total_max locals.
Proof.
  induction locals as [|x locals IH]; [by left|]. cbn [total_max foldr].
  fold (total_max locals).
  destruct (Z.max_spec x.2 (total_max locals)) as [[Hlt E]|[Hle E]]; rewrite E.
  - destruct IH as [IH|(r & Hr & IH)]; [by left|right].
    exists r. split; [by right|done].
  - right. exists x. split; [by left|done].
Qed.

Lemma total_count_app l1 l2 :
  total_count (l1 ++ l2) = total_count l1 + total_count l2.
Proof. induction l1 as [|x l1 IH]; simpl in *; lia. Qed.

(** Part of the local results adds up to no more than all of them. *)
Lemma total_count_submseteq l1 l2 :
  l1 ⊆+ l2 → Forall (λ r, 0 ≤ r.1) l2 → total_count l1 ≤ total_count l2.
Proof.
  intros [k Hk]%submseteq_Permutation Hnn.
  rewrite (total_count_perm _ _ Hk), total_count_app.
  rewrite Hk in Hnn. apply Forall_app in Hnn as [_ Hnn].
  pose proof (total_count_nonneg _ Hnn). lia.
Qed.

Lemma sum_over_added_bounds ws :
  Forall (λ r, 0 ≤ r.1) (results_of ws) →
  0 ≤ sum_over added ws ≤ total_count (results_of ws).
Proof.
  unfold results_of, sum_over, total_count.
  induction ws as [|w ws IH]; [done|]. rewrite fmap_cons.
  intros [Hw Hws]%Forall_cons. specialize (IH Hws).
  cbn [foldr fst] in *. unfold added at 1 3. destruct (at_pc w); lia.
Qed.

(** X8. What [atomicCount] and [atomicMax] hold at any moment of a run of
    [parallelWithCAS], the join not awaited: the counter is exactly the sum
    of the local counts already added, between 0 and the final count, and
    the maximum is [INT_MIN] or a multiple of 5 of the dataset, at most the
    final maximum. A reader before the join gets lower bounds of the
    result, never a value that was not found in the data. *)
Theorem partial_results_CAS data T sched st :
  Dataset data → 1 ≤ T ≤ INT_MAX →
  (spawnCAS data T ≫= run sched) = Some st →
  atomicCount (shared st) = sum_over added (workers st) ∧
  0 ≤ atomicCount (shared st) ≤ count_of data ∧
  INT_MIN ≤ atomicMax (shared st) ≤ max_of data ∧
  (atomicMax (shared st) = INT_MIN ∨
   atomicMax (shared st) ∈ data ∧ Z.rem (atomicMax (shared st)) 5 = 0).
Proof.
  intros Hdata HT. rewrite spawnCAS_result by done. cbn [mbind option_bind].
  set (secs := chunk_bounds (Z.of_nat (length data)) T <$> thread_ids T).
  intros Hrun. destruct (writes_run _ _ _ Hrun) as [Hinv Hwr].
  destruct (totals_of_partition data T) as [Hcount Hmax]; [lia|].
  fold secs in Hcount, Hmax.
  pose proof (local_results_nonneg data secs) as Hnn.
  rewrite <- (inv_results _ _ Hinv) in Hnn.
  pose proof (sum_over_added_bounds _ Hnn) as Hadded.
  rewrite (inv_results _ _ Hinv), Hcount in Hadded.
  pose proof (Dataset_count _ Hdata) as Hfit.
  assert (atomicCount (shared st) = sum_over added (workers st)) as Hc.
  { rewrite (inv_count _ _ Hinv). apply to_int_id. int_arith. }
  split; [done|]. split; [lia|]. split.
  - split; [apply Hinv|]. rewrite <- Hmax. apply Hinv.
  - destruct (wr_origin _ _ Hwr (atomicMax (shared st))) as [E|(k & r & Hr & E)];
      [by right|by left|].
    rewrite <- E. by eapply local_origin, list_elem_of_lookup_2.
Qed.

Lemma partial_results_CAS_witness :
  atomicCount (Atomics 2 25 [INT_MIN]) =
  sum_over added [Worker 1 5 AtFetchAdd; Worker 1 10 (AtLoad INT_MIN);
                  Worker 1 25 Finished] ∧
  0 ≤ atomicCount (Atomics 2 25 [INT_MIN]) ≤ count_of [5; 3; 10; 22; 25; 7] ∧
  INT_MIN ≤ atomicMax (Atomics 2 25 [INT_MIN]) ≤ max_of [5; 3; 10; 22; 25; 7] ∧
  (atomicMax (Atomics 2 25 [INT_MIN]) = INT_MIN ∨
   atomicMax (Atomics 2 25 [INT_MIN]) ∈ [5; 3; 10; 22; 25; 7] ∧
   Z.rem (atomicMax (Atomics 2 25 [INT_MIN])) 5 = 0).
Proof.
  apply (partial_results_CAS [5; 3; 10; 22; 25; 7] 3
           [FetchAdd 2; Load 2 INT_MIN; Exchange 2; FetchAdd 1]
           (State (Atomics 2 25 [INT_MIN])
                  [Worker 1 5 AtFetchAdd; Worker 1 10 (AtLoad INT_MIN);
                   Worker 1 25 Finished])).
  - small_dataset.
  - unfold INT_MAX. lia.
  - reflexivity.
Defined.

(** X9. The same for [parallelWithMutex]: once any of the workers, each at
    most once, have been through the critical section of
    [processSectionWithMutex], the shared [count] is the sum of their local
    counts, between 0 and the final count, and the shared [maxValue] is
    [INT_MIN] or a multiple of 5 of the dataset, at most the final
    maximum. *)
Theorem partial_results_mutex data T held :
  Dataset data → 1 ≤ T ≤ INT_MAX →
  NoDup held → Forall (λ k, (k < Z.to_nat T)%nat) held →
  ∃ secs count maxValue,
    partitions (Z.of_nat (length data)) T = Some secs ∧
    critical_sections held secs data (0, INT_MIN) = Some (count, maxValue) ∧
    count = total_count (local_of data secs <$> held) ∧
    0 ≤ count ≤ count_of data ∧
    INT_MIN ≤ maxValue ≤ max_of data ∧
    (maxValue = INT_MIN ∨ maxValue ∈ data ∧ Z.rem maxValue 5 = 0).
Proof.
  intros Hdata HT Hnodup Hheld. pose proof Hdata as [Hint Hlen].
  set (secs := chunk_bounds (Z.of_nat (length data)) T <$> thread_ids T).
  assert (length secs = Z.to_nat T) as Hsecs
    by (unfold secs; by rewrite length_fmap, length_thread_ids).
  destruct (totals_of_partition data T) as [Hcount Hmax]; [lia|].
  fold secs in Hcount, Hmax.
  assert (local_of data secs <$> held ⊆+ local_results data secs) as Hsub.
  { transitivity (local_of data secs <$> seq 0 (length (local_results data secs))).
    - apply fmap_submseteq, NoDup_submseteq; [done|].
      intros k Hk. rewrite Forall_forall in Hheld. specialize (Hheld k Hk).
      apply elem_of_seq. unfold local_results. rewrite length_fmap, Hsecs. lia.
    - unfold local_of. by rewrite lookup_all. }
  pose proof (total_count_submseteq _ _ Hsub (local_results_nonneg data secs))
    as Hpart.
  rewrite Hcount in Hpart.
  assert (0 ≤ total_count (local_of data secs <$> held)) as Hnn.
  { apply total_count_nonneg, Forall_fmap, Forall_true.
    intros j. apply local_of_nonneg. }
  pose proof (Dataset_count _ Hdata) as Hfit.
  pose proof (total_max_ge (local_of data secs <$> held)) as Hge.
  exists secs, (total_count (local_of data secs <$> held)),
         (total_max (local_of data secs <$> held)).
  split; [by apply partitions_result; lia|].
  split; [|split; [done|split; [lia|split]]].
  - rewrite critical_sections_result; try done; try lia.
    + do 2 f_equal; lia.
    + by apply chunk_bounds_in_bounds; lia.
    + by rewrite Hsecs.
  - split; [done|]. rewrite <- Hmax. apply total_max_least; [apply total_max_ge|].
    intros k r Hr. apply list_elem_of_lookup_2 in Hr.
    pose proof (elem_of_submseteq _ _ _ Hr Hsub) as Hr'.
    apply list_elem_of_lookup_1 in Hr' as [i Hi]. by eapply total_max_upper.
  - destruct (total_max_origin (local_of data secs <$> held))
      as [E|(r & Hr & E)]; [by left|].
    rewrite <- E. pose proof (elem_of_submseteq _ _ _ Hr Hsub) as Hr'.
    by eapply local_origin.
Qed.

Lemma partial_results_mutex_witness :
  ∃ secs count maxValue,
    partitions (Z.of_nat (length [5; 3; 10; 22; 25; 7])) 3 = Some secs ∧
    critical_sections [2; 0]%nat secs [5; 3; 10; 22; 25; 7] (0, INT_MIN)
    = Some (count, maxValue) ∧
    count = total_count (local_of [5; 3; 10; 22; 25; 7] secs <$> [2; 0]%nat) ∧
    0 ≤ count ≤ count_of [5; 3; 10; 22; 25; 7] ∧
    INT_MIN ≤ maxValue ≤ max_of [5; 3; 10; 22; 25; 7] ∧
    (maxValue = INT_MIN ∨
     maxValue ∈ [5; 3; 10; 22; 25; 7] ∧ Z.rem maxValue 5 = 0).
Proof.
  apply (partial_results_mutex [5; 3; 10; 22; 25; 7] 3 [2; 0]%nat).
  - small_dataset.
  - unfold INT_MAX. lia.
  - apply (bool_decide_unpack (NoDup [2; 0]%nat)). reflexivity.
  - repeat constructor.
Defined.

(** ** The driver *)

Lemma generate_Some matrixSize rand :
  0 ≤ matrixSize →
  generate matrixSize rand =
  Some ((λ i, Z.rem (rand i) 1001) <$> seq 0 (Z.to_nat matrixSize)).
Proof. intros H. unfold generate. by destruct (Z.ltb_spec matrixSize 0); [lia|]. Qed.

Lemma generate_elements matrixSize rand data :
  (∀ i, 0 ≤ rand i) → generate matrixSize rand = Some data →
  Z.of_nat (length data) = matrixSize ∧ Forall (λ v, 0 ≤ v ≤ 1000) data.
Proof.
  intros Hrand. unfold generate.
  destruct (Z.ltb_spec matrixSize 0); [done|]. intros [= <-]. split.
  - rewrite length_fmap, length_seq. lia.
  - apply Forall_fmap, Forall_true. intros i. simpl.
    pose proof (Z.rem_bound_pos (rand i) 1001 (Hrand i) ltac:(lia)). lia.
Qed.

Lemma generate_Dataset matrixSize rand data :
  (∀ i, 0 ≤ rand i) → matrixSize ≤ INT_MAX →
  generate matrixSize rand = Some data → Dataset data.
Proof.
  intros Hrand Hmax Hgen.
  destruct (generate_elements _ _ _ Hrand Hgen) as [Hlen Hall].
  split; [|lia]. eapply Forall_impl; [exact Hall|]. simpl. intros v Hv. int_arith.
Qed.

(** X10. The datasets of [main]: the vector has [matrixSize] elements,
    element [i] is the remainder of the [i]-th value of [rand()] by 1001
    and lies in [0, 1000]; a negative size gives no dataset. The sizes
    [main] uses are [int] values, so its datasets have [int] elements and a
    length that is an [int] value. *)
Theorem generate_range matrixSize rand :
  (∀ i, 0 ≤ rand i) →
  (matrixSize < 0 → generate matrixSize rand = None) ∧
  (0 ≤ matrixSize →
   ∃ data, generate matrixSize rand = Some data ∧
           Z.of_nat (length data) = matrixSize ∧
           (∀ i, (i < length data)%nat →
                 data !! i = Some (rand i `mod` 1001)) ∧
           Forall (λ v, 0 ≤ v ≤ 1000) data ∧
           (matrixSize ≤ INT_MAX → Dataset data)) ∧
  Forall (λ size, 0 ≤ size ≤ INT_MAX) matrixSizes.
Proof.
  intros Hrand. split; [|split].
  - intros H. unfold generate. by destruct (Z.ltb_spec matrixSize 0); [|lia].
  - intros H. pose proof (generate_Some matrixSize rand H) as Hgen.
    destruct (generate_elements _ _ _ Hrand Hgen) as [Hlen Hall].
    eexists. split; [exact Hgen|]. split; [done|]. split; [|split; [done|]].
    + intros i Hi. rewrite length_fmap, length_seq in Hi.
      rewrite list_lookup_fmap, lookup_seq_lt by done. simpl.
      by rewrite Z.rem_mod_nonneg by (done || lia).
    + intros Hmax. by eapply generate_Dataset.
  - unfold matrixSizes, INT_MAX. repeat (constructor; [lia|]). constructor.
Qed.

Lemma generate_range_witness :
  (3 < 0 → generate 3 (λ i, 2002 + Z.of_nat i) = None) ∧
  (0 ≤ 3 →
   ∃ data, generate 3 (λ i, 2002 + Z.of_nat i) = Some data ∧
           Z.of_nat (length data) = 3 ∧
           (∀ i, (i < length data)%nat →
                 data !! i = Some ((2002 + Z.of_nat i) `mod` 1001)) ∧
           Forall (λ v, 0 ≤ v ≤ 1000) data ∧
           (3 ≤ INT_MAX → Dataset data)) ∧
  Forall (λ size, 0 ≤ size ≤ INT_MAX) matrixSizes.
Proof. apply (generate_range 3 (λ i, 2002 + Z.of_nat i)). lia. Defined.

(** ** The lock-free reducer without contention *)

Lemma step_middle done_ w rest m e w' m' :
  actor e = length done_ → processSectionWithCAS e w m = Some (w', m') →
  step (State m (done_ ++ w :: rest)) e = Some (State m' (done_ ++ w' :: rest)).
Proof.
  intros Hk Hs. unfold step. cbn [workers shared].
  rewrite (list_lookup_middle done_ rest w (actor e) Hk).
  cbn [mbind option_bind]. rewrite Hs. cbn [mbind option_bind].
  rewrite insert_app_r_alt by lia. by rewrite Hk, Nat.sub_diag.
Qed.

Lemma one_by_one_run rest :
  ∀ done_ c cur hist,
    INT_MIN ≤ cur →
    ∃ m', run (one_by_one (length done_) rest cur)
              (State (Atomics c cur hist)
                     (done_ ++ ((λ r, Worker r.1 r.2 AtFetchAdd) <$> rest)))
          = Some (State m' (done_ ++ ((λ r, Worker r.1 r.2 Finished) <$> rest))).
Proof.
  induction rest as [|r rest IH]; intros done_ c cur hist Hcur; [by eexists|].
  rewrite !fmap_cons. cbn [one_by_one].
  set (k := length done_).
  set (ws := (λ r, Worker r.1 r.2 AtFetchAdd) <$> rest).
  assert (readable (Atomics (to_int (c + r.1)) cur hist) INT_MIN cur = true)
    as Hread by (apply readable_spec; split; [left|done]).
  assert (∀ m', INT_MIN ≤ atomicMax m' → ∃ m'',
            run (one_by_one (S k) rest (atomicMax m'))
                (State m' (done_ ++ Worker r.1 r.2 Finished :: ws)) =
            Some (State m'' (done_ ++ Worker r.1 r.2 Finished
                                   :: ((λ r, Worker r.1 r.2 Finished) <$> rest))))
    as Hrest.
  { intros [c' cur' hist']. cbn [atomicMax]. intros Hcur'.
    destruct (IH (done_ ++ [Worker r.1 r.2 Finished]) c' cur' hist' Hcur')
      as [m'' Hm''].
    rewrite length_app, Nat.add_1_r, <- !app_assoc in Hm''. by exists m''. }
  destruct (r.2 >? cur) eqn:E; cbn [run].
  - erewrite step_middle; [|done|reflexivity]. cbn [mbind option_bind].
    erewrite step_middle; [|done|cbn; rewrite Hread; reflexivity].
    cbn [mbind option_bind].
    erewrite step_middle;
      [|done|cbn; rewrite E, Z.eqb_refl; reflexivity].
    cbn [mbind option_bind goto localCount localMax].
    apply (Hrest (Atomics _ _ _)). cbn [atomicMax].
    rewrite Z.gtb_ltb in E. apply Z.ltb_lt in E. change (INT_MIN ≤ r.2). lia.
  - erewrite step_middle; [|done|reflexivity]. cbn [mbind option_bind].
    erewrite step_middle; [|done|cbn; rewrite Hread; reflexivity].
    cbn [mbind option_bind].
    erewrite step_middle; [|done|cbn; rewrite E; reflexivity].
    cbn [mbind option_bind goto localCount localMax].
    by apply (Hrest (Atomics _ _ _)).
Qed.

Lemma one_by_one_joined locals :
  ∃ st, run (one_by_one 0 locals INT_MIN) (initial_state locals) = Some st ∧
        joined st = true.
Proof.
  destruct (one_by_one_run locals [] 0 INT_MIN [] ltac:(done)) as [m' Hrun].
  eexists. split; [exact Hrun|].
  unfold joined. cbn [workers app]. clear Hrun.
  induction locals as [|r locals IH]; [done|]. rewrite fmap_cons. exact IH.
Qed.

Lemma atomic_accesses_cons e sched :
  atomic_accesses (e :: sched) =
  (if is_atomic e then 1 else 0) + atomic_accesses sched.
Proof.
  unfold atomic_accesses. rewrite filter_cons.
  destruct (decide (is_atomic e = true)) as [E|E].
  - rewrite E. simpl. lia.
  - by destruct (is_atomic e).
Qed.

Lemma exchanges_cons e sched :
  exchanges (e :: sched) = (if is_exchange e then 1 else 0) + exchanges sched.
Proof.
  unfold exchanges. rewrite filter_cons.
  destruct (decide (is_exchange e = true)) as [E|E].
  - rewrite E. simpl. lia.
  - by destruct (is_exchange e).
Qed.

Lemma failures_cons e sched :
  failures (e :: sched) = (if is_fail e then 1 else 0) + failures sched.
Proof.
  unfold failures. rewrite filter_cons.
  destruct (decide (is_fail e = true)) as [E|E].
  - rewrite E. simpl. lia.
  - by destruct (is_fail e).
Qed.

Lemma exchanges_bounds sched : 0 ≤ exchanges sched ≤ atomic_accesses sched.
Proof.
  induction sched as [|e sched IH]; [done|].
  rewrite exchanges_cons, atomic_accesses_cons. destruct e; simpl; lia.
Qed.

(** The atomic accesses of the one-by-one run: two for each worker, and
    its exchanges. *)
Lemma one_by_one_accesses locals :
  ∀ k cur,
    atomic_accesses (one_by_one k locals cur) =
      2 * Z.of_nat (length locals) + exchanges (one_by_one k locals cur) ∧
    exchanges (one_by_one k locals cur) ≤ Z.of_nat (length locals).
Proof.
  induction locals as [|r locals IH]; intros k cur; [done|].
  cbn [one_by_one].
  destruct (r.2 >? cur);
    rewrite !atomic_accesses_cons, !exchanges_cons;
    cbn [is_atomic is_exchange length];
    match goal with
    | |- context [one_by_one ?k' locals ?c] => destruct (IH k' c) as [-> ?]
    end; lia.
Qed.

(** What a step does to the atomic accesses made and still to make. *)
Lemma step_accesses st e st' :
  step st e = Some st' →
  sum_over accesses_left (workers st') + (if is_atomic e then 1 else 0) =
  sum_over accesses_left (workers st) + (if is_exchange e then 1 else 0)
  + (if is_fail e || is_spurious e then 2 else 0).
Proof.
  intros Hstep. apply step_inv in Hstep as (w & w' & m' & Hw & Hstep & ->).
  apply worker_step_access in Hstep. cbn [workers].
  rewrite (sum_over_insert _ _ _ _ w' Hw). unfold accesses_left.
  destruct Hstep as [k Hpc|k seen v Hpc Hin Hle|k currentMax Hpc Hle|k Hpc Hlt
                    |k currentMax v Hpc Hlt Hin Hne|k currentMax Hpc Hlt];
    rewrite Hpc;
    cbn [goto at_pc is_atomic is_exchange is_fail is_spurious orb]; lia.
Qed.

Lemma run_accesses sched st st' :
  run sched st = Some st' →
  sum_over accesses_left (workers st') + atomic_accesses sched =
  sum_over accesses_left (workers st) + exchanges sched
  + 2 * (failures sched + spurious_failures sched).
Proof.
  revert st. induction sched as [|e sched IH]; intros st; cbn [run].
  - intros [= <-]. unfold atomic_accesses, exchanges, failures,
      spurious_failures. simpl. lia.
  - destruct (step st e) as [st1|] eqn:E; [|done]. cbn [mbind option_bind].
    intros Hrun. specialize (IH _ Hrun). apply step_accesses in E.
    rewrite atomic_accesses_cons, exchanges_cons, failures_cons,
      spurious_failures_cons.
    destruct e; cbn [is_atomic is_exchange is_fail is_spurious orb] in *; lia.
Qed.

Lemma accesses_initial locals :
  sum_over accesses_left (workers (initial_state locals))
  = 2 * Z.of_nat (length locals).
Proof.
  cbn [initial_state workers]. unfold sum_over.
  induction locals as [|r locals IH]; [done|].
  rewrite fmap_cons. cbn [foldr length]. rewrite IH.
  unfold accesses_left. cbn [at_pc]. lia.
Qed.

Lemma accesses_joined st :
  joined st = true → sum_over accesses_left (workers st) = 0.
Proof.
  unfold joined, sum_over. induction (workers st) as [|w ws IH]; [done|].
  cbn [forallb foldr]. intros [Hw Hws]%andb_true_iff. rewrite (IH Hws).
  unfold finished in Hw. unfold accesses_left. by destruct (at_pc w).
Qed.

(** X11. The workers of [parallelWithCAS] without contention: when they
    go one after another, each makes two atomic accesses, the [fetch_add]
    and one load, and a third, the exchange, only if its local maximum
    exceeds what [atomicMax] holds (the test that leaves the loop is no
    atomic access); no [compare_exchange_weak] fails, and all return. No
    run in which all return has fewer atomic accesses than two for each
    worker and one for each exchange. *)
Theorem uncontended_run locals :
  (∃ st, run (one_by_one 0 locals INT_MIN) (initial_state locals) = Some st ∧
         joined st = true) ∧
  atomic_accesses (one_by_one 0 locals INT_MIN)
  = 2 * Z.of_nat (length locals) + exchanges (one_by_one 0 locals INT_MIN) ∧
  0 ≤ exchanges (one_by_one 0 locals INT_MIN) ≤ Z.of_nat (length locals) ∧
  Forall (λ e, match e with Fail _ _ | Spurious _ => False | _ => True end)
         (one_by_one 0 locals INT_MIN) ∧
  (∀ sched st,
     run sched (initial_state locals) = Some st → joined st = true →
     2 * Z.of_nat (length locals) + exchanges sched ≤ atomic_accesses sched).
Proof.
  split; [apply one_by_one_joined|].
  destruct (one_by_one_accesses locals 0 INT_MIN) as [Hacc Hex].
  pose proof (exchanges_bounds (one_by_one 0 locals INT_MIN)) as Hnn.
  split; [done|]. split; [lia|]. split.
  - generalize 0%nat INT_MIN. clear. induction locals as [|r locals IH]; intros k cur.
    + constructor.
    + cbn [one_by_one]. destruct (r.2 >? cur); repeat (constructor; [done|]);
        apply IH.
  - intros sched st Hrun Hj. pose proof (run_accesses _ _ _ Hrun) as H.
    rewrite accesses_initial, (accesses_joined _ Hj) in H.
    unfold failures, spurious_failures in H. lia.
Qed.

(** ** The report of a whole run *)

Lemma threadCounts_range T : T ∈ threadCounts → 1 ≤ T ≤ INT_MAX.
Proof.
  unfold threadCounts, INT_MAX. rewrite !elem_of_cons, elem_of_nil. lia.
Qed.

Lemma in_turn_possible matrixSize :
  0 ≤ matrixSize ≤ INT_MAX → possible matrixSize (in_turn matrixSize).
Proof.
  intros Hsize. split; [|split]; cbn [in_turn rand lock interleaving].
  - lia.
  - intros T _. by unfold lock_order.
  - intros data T Hgen HT. rewrite Hgen. cbn [mbind option_bind].
    assert (Dataset data) as Hdata.
    { eapply (generate_Dataset matrixSize); [|lia|exact Hgen]. simpl. lia. }
    pose proof (threadCounts_range T HT) as HT'.
    pose proof Hdata as [Hint Hlen].
    rewrite partitions_result by lia. cbn [mbind option_bind].
    rewrite scan_sections_result
      by (done || apply chunk_bounds_in_bounds; lia).
    cbn [from_option id].
    pose proof (parallelWithCAS_unfold data T) as Hunfold.
    cbv zeta in Hunfold. rewrite Hunfold by done.
    destruct (one_by_one_joined
                (local_results data
                   (chunk_bounds (Z.of_nat (length data)) T <$> thread_ids T)))
      as (st & -> & Hj).
    cbn [mbind option_bind]. by rewrite Hj.
Qed.

Lemma size_block_result matrixSize x data :
  matrixSize ≤ INT_MAX → possible matrixSize x →
  generate matrixSize (rand x) = Some data →
  size_block matrixSize x =
  Some (size_report matrixSize
          (elapsed_linear x, (count_of data, max_of data))
          (λ T, (elapsed_mutex x T, (count_of data, max_of data)))
          (λ T, (elapsed_cas x T, (count_of data, max_of data)))
        ++ [endl]).
Proof.
  intros Hmax (Hrand & Hlock & Hcas) Hgen.
  pose proof (generate_Dataset _ _ _ Hrand Hmax Hgen) as Hdata.
  unfold size_block. rewrite Hgen. cbn [mbind option_bind].
  rewrite linearExecution_result by (by apply Dataset_count).
  cbn [mbind option_bind].
  assert (mapM (λ numThreads,
                  result ← parallelWithMutex data numThreads (lock x numThreads);
                  Some (data_line matrixSize (show_int numThreads) "Mutex"
                                  (elapsed_mutex x numThreads) result))
               threadCounts
          = Some ((λ T, data_line matrixSize (show_int T) "Mutex"
                                  (elapsed_mutex x T) (count_of data, max_of data))
                  <$> threadCounts)) as ->.
  { apply mapM_total, Forall_forall. intros T HT. cbv beta.
    rewrite parallelWithMutex_result;
      [done|done|by apply threadCounts_range|by apply Hlock]. }
  cbn [mbind option_bind].
  assert (mapM (λ numThreads,
                  result ← parallelWithCAS data numThreads
                                           (interleaving x numThreads);
                  Some (data_line matrixSize (show_int numThreads) "CAS"
                                  (elapsed_cas x numThreads) result))
               threadCounts
          = Some ((λ T, data_line matrixSize (show_int T) "CAS"
                                  (elapsed_cas x T) (count_of data, max_of data))
                  <$> threadCounts)) as ->.
  { apply mapM_total, Forall_forall. intros T HT. cbv beta.
    destruct (Hcas data T Hgen HT) as [r Hr]. rewrite Hr.
    apply parallelWithCAS_result in Hr as ->;
      [done|done|by apply threadCounts_range]. }
  cbn [mbind option_bind]. unfold size_report. cbn [fst snd].
  by rewrite <- app_comm_cons, <- app_assoc.
Qed.

Lemma generated_bounds matrixSize rand data :
  (∀ i, 0 ≤ rand i) → matrixSize ≤ INT_MAX →
  generate matrixSize rand = Some data →
  0 ≤ count_of data ≤ matrixSize ∧
  (count_of data = 0 ∧ max_of data = INT_MIN ∨
   0 < count_of data ∧ 0 ≤ max_of data ≤ 1000 ∧ Z.rem (max_of data) 5 = 0 ∧
   max_of data ∈ data).
Proof.
  intros Hrand Hmax Hgen.
  destruct (generate_elements _ _ _ Hrand Hgen) as [Hlen Hall].
  pose proof (generate_Dataset _ _ _ Hrand Hmax Hgen) as [Hint _].
  pose proof (count_of_nonneg data). pose proof (count_of_length data).
  split; [lia|].
  destruct (decide (count_of data = 0)) as [E|E].
  - left. split; [done|]. by apply max_of_sentinel.
  - right. split; [lia|].
    destruct (max_of_elem data) as [E'|[Hin Hrem]].
    + by apply max_of_sentinel in E'.
    + rewrite Forall_forall in Hall. split; [by apply Hall|done].
Qed.



Lemma matrixSizes_range matrixSize :
  matrixSize ∈ matrixSizes → 0 ≤ matrixSize ≤ INT_MAX.
Proof.
  unfold matrixSizes, INT_MAX. rewrite !elem_of_cons, elem_of_nil. lia.
Qed.

Lemma size_report_length matrixSize linear mutex cas :
  length (size_report matrixSize linear mutex cas) = 13%nat.
Proof.
  unfold size_report. cbn [length]. by rewrite length_app, !length_fmap.
Qed.

(** X13. The output of [main]: two title lines, the line of column names,
    and for each of the four input sizes, in order, thirteen data lines
    with one count and one maximum, then an empty line: 59 lines. The count
    of a size is at most the size, its maximum [INT_MIN] or between 0 and
    1000. *)
Theorem main_report x :
  (∀ matrixSize, matrixSize ∈ matrixSizes → possible matrixSize (x matrixSize)) →
  ∃ (result : Z → Z * Z) report,
    main x = Some report ∧
    report =
      title ++ header_line
      :: concat ((λ size,
                    size_report size
                      (elapsed_linear (x size), result size)
                      (λ T, (elapsed_mutex (x size) T, result size))
                      (λ T, (elapsed_cas (x size) T, result size))
                    ++ [endl]) <$> matrixSizes) ∧
    length report = 59%nat ∧
    (∀ size, size ∈ matrixSizes →
             0 ≤ (result size).1 ≤ size ∧
             ((result size).2 = INT_MIN ∨ 0 ≤ (result size).2 ≤ 1000)).
Proof.
  intros Hx.
  set (data := λ size, (λ i, Z.rem (rand (x size) i) 1001)
                       <$> seq 0 (Z.to_nat size)).
  set (result := λ size, (count_of (data size), max_of (data size))).
  assert (∀ size, size ∈ matrixSizes →
                  generate size (rand (x size)) = Some (data size)) as Hgen.
  { intros size Hsize%matrixSizes_range. apply generate_Some. lia. }
  exists result. eexists. split; [|split; [reflexivity|split]].
  - unfold main.
    rewrite (mapM_total _
               (λ size, size_report size
                          (elapsed_linear (x size), result size)
                          (λ T, (elapsed_mutex (x size) T, result size))
                          (λ T, (elapsed_cas (x size) T, result size))
                        ++ [endl])); [done|].
    apply Forall_forall. intros size Hsize. cbv beta.
    pose proof (matrixSizes_range _ Hsize).
    apply size_block_result; [lia|by apply Hx|by apply Hgen].
  - unfold matrixSizes. rewrite !fmap_cons, fmap_nil. cbn [concat].
    unfold title. cbn [app length].
    rewrite !length_app, !size_report_length. done.
  - intros size Hsize. pose proof (matrixSizes_range _ Hsize) as Hrange.
    destruct (Hx size Hsize) as (Hrand & _ & _).
    destruct (generated_bounds size (rand (x size)) (data size) Hrand
                ltac:(lia) (Hgen size Hsize)) as [Hcount Hmax].
    split; [done|]. unfold result. cbn [fst snd]. destruct Hmax; [left|right]; tauto.
Qed.

Lemma main_report_witness :
  ∃ (result : Z → Z * Z) report,
    main in_turn = Some report ∧
    report =
      title ++ header_line
      :: concat ((λ size,
                    size_report size
                      (elapsed_linear (in_turn size), result size)
                      (λ T, (elapsed_mutex (in_turn size) T, result size))
                      (λ T, (elapsed_cas (in_turn size) T, result size))
                    ++ [endl]) <$> matrixSizes) ∧
    length report = 59%nat ∧
    (∀ size, size ∈ matrixSizes →
             0 ≤ (result size).1 ≤ size ∧
             ((result size).2 = INT_MIN ∨ 0 ≤ (result size).2 ≤ 1000)).
Proof.
  apply (main_report in_turn).
  intros matrixSize Hsize. apply in_turn_possible.
  unfold matrixSizes, INT_MAX in *.
  rewrite !elem_of_cons, elem_of_nil in Hsize. lia.
Defined.

Lemma read_show_int z : read_int (show_int z) = Some z.
Proof.
  unfold read_int, show_int. rewrite NilEmpty.isi. cbn [fmap option_fmap option_map].
  by rewrite DecimalZ.of_to.
Qed.

(** X14. The columns of the report: the line of names has six names
    between its tabs and a data line seven pieces, the second of them
    empty, the others in the order of the names; and the size, the count
    and the maximum read back from their pieces as the values printed. *)
Theorem report_columns matrixSize threads mode elapsed result :
  all_chars (other_than tab_char) threads = true →
  all_chars (other_than tab_char) mode = true →
  ∃ names body size_ time count maxValue,
    header_line = names +:+ endl ∧
    split_on tab_char names =
    ["Matrix Size"; "Threads"; "Mode"; "Time (seconds)"; "Count"; "Max Value"] ∧
    data_line matrixSize threads mode elapsed result = body +:+ endl ∧
    split_on tab_char body = [size_; ""; threads; mode; time; count; maxValue] ∧
    read_int size_ = Some matrixSize ∧
    time = show_fixed6 elapsed ∧
    read_int count = Some result.1 ∧
    read_int maxValue = Some result.2.
Proof.
  intros Hthreads Hmode.
  destruct (data_line_fields matrixSize threads mode elapsed result
              Hthreads Hmode) as (body & Hline & Hfields).
  exists ("Matrix Size" +:+ tab +:+ "Threads" +:+ tab +:+ "Mode" +:+ tab +:+
          "Time (seconds)" +:+ tab +:+ "Count" +:+ tab +:+ "Max Value"), body.
  eexists _, _, _, _.
  split; [reflexivity|]. split; [reflexivity|].
  split; [exact Hline|]. split; [exact Hfields|].
  by rewrite !read_show_int.
Qed.

Lemma report_columns_witness :
  ∃ names body size_ time count maxValue,
    header_line = names +:+ endl ∧
    split_on tab_char names =
    ["Matrix Size"; "Threads"; "Mode"; "Time (seconds)"; "Count"; "Max Value"] ∧
    data_line 10000 "16" "CAS" (Seconds false 1234) (2005, 1000) = body +:+ endl ∧
    split_on tab_char body = [size_; ""; "16"; "CAS"; time; count; maxValue] ∧
    read_int size_ = Some 10000 ∧
    time = show_fixed6 (Seconds false 1234) ∧
    read_int count = Some (2005, 1000).1 ∧
    read_int maxValue = Some (2005, 1000).2.
Proof.
  apply (report_columns 10000 "16" "CAS" (Seconds false 1234) (2005, 1000));
    reflexivity.
Defined.

(** ** The lock-free reducer: how often an exchange can fail *)

Lemma lag_eq m w :
  lag m w =
  match at_pc w with
  | AtFetchAdd => unseen m INT_MIN
  | AtLoad seen => unseen m seen
  | AtWhile currentMax => unseen m currentMax
  | Finished => 0
  end.
Proof. done. Qed.

Lemma lag_nonneg m w : 0 ≤ lag m w.
Proof.
  rewrite lag_eq. unfold unseen.
  destruct (at_pc w) as [|s|c|]; try lia; apply above_nonneg.
Qed.

(** A write of [atomicMax] gives every worker that has not returned one
    more value to learn of. *)
Lemma lag_push c x m w :
  lag (Atomics c x (atomicMax m :: overwritten m)) w
  ≤ lag m w + (if finished w then 0 else 1).
Proof.
  rewrite !lag_eq. unfold unseen, finished. simpl.
  destruct (at_pc w) as [|s|s|]; try lia;
    rewrite (above_cons _ x); case_decide; lia.
Qed.

Lemma sum_over_lag_push c x m ws :
  sum_over (lag (Atomics c x (atomicMax m :: overwritten m))) ws
  ≤ sum_over (lag m) ws + unfinished ws.
Proof.
  unfold unfinished. induction ws as [|w ws IH]; simpl; [lia|].
  pose proof (lag_push c x m w). lia.
Qed.

Lemma unfinished_nonneg ws : 0 ≤ unfinished ws.
Proof. apply sum_over_nonneg. intros w. destruct (finished w); lia. Qed.

Lemma contention_nonneg st : 0 ≤ contention st.
Proof.
  unfold contention.
  pose proof (sum_over_nonneg (lag (shared st)) (workers st) (lag_nonneg _)).
  pose proof (unfinished_nonneg (workers st)). nia.
Qed.

(** No access raises the measure, and a failed exchange lowers it. *)
Lemma step_contention st e st' :
  step st e = Some st' →
  contention st' + (if is_fail e then 2 else 0) ≤ contention st.
Proof.
  intros Hstep.
  apply step_inv in Hstep as (w & w' & m' & Hw & Hstep & ->).
  apply worker_step_access in Hstep. unfold contention. cbn [shared workers].
  pose proof (unfinished_nonneg (<[actor e := w']> (workers st))) as Hleft.
  unfold unfinished in *.
  rewrite (sum_over_insert (λ w, if finished w then 0 else 1) _ _ _ w' Hw)
    in *.
  unfold finished in *.
  destruct Hstep as [k Hpc|k seen v Hpc Hin Hle|k currentMax Hpc Hle|k Hpc Hlt
                    |k currentMax v Hpc Hlt Hin Hne|k currentMax Hpc Hlt];
    rewrite Hpc in *; cbn [goto at_pc is_fail actor] in *.
  - change (lag (Atomics (to_int (atomicCount (shared st) + localCount w))
                         (atomicMax (shared st)) (overwritten (shared st))))
      with (lag (shared st)).
    rewrite (sum_over_insert _ _ _ _ _ Hw), !lag_eq. cbn [goto at_pc].
    rewrite Hpc. lia.
  - rewrite (sum_over_insert _ _ _ _ _ Hw), !lag_eq. cbn [goto at_pc].
    rewrite Hpc. unfold unseen.
    pose proof (above_mono seen v
                  (atomicMax (shared st) :: overwritten (shared st)) Hle).
    lia.
  - rewrite (sum_over_insert _ _ _ _ _ Hw), !lag_eq. cbn [goto at_pc].
    rewrite Hpc. unfold unseen.
    pose proof (above_nonneg currentMax
                  (atomicMax (shared st) :: overwritten (shared st))).
    nia.
  - pose proof (sum_over_lag_push (atomicCount (shared st)) (localMax w)
                  (shared st) (workers st)) as Hpush.
    unfold unfinished, finished in Hpush.
    rewrite (sum_over_insert _ _ _ _ _ Hw), !lag_eq. cbn [goto at_pc].
    rewrite Hpc. unfold unseen. cbn [atomicMax overwritten].
    rewrite (above_cons _ (localMax w)), decide_True by done.
    pose proof (above_nonneg (atomicMax (shared st))
                  (atomicMax (shared st) :: overwritten (shared st))).
    nia.
  - rewrite (sum_over_insert _ _ _ _ _ Hw), !lag_eq. cbn [goto at_pc].
    rewrite Hpc. unfold unseen.
    pose proof (above_strict currentMax v _ Hin Hne). lia.
  - rewrite (sum_over_insert _ _ _ _ _ Hw), !lag_eq. cbn [goto at_pc].
    rewrite Hpc. lia.
Qed.

Lemma run_contention sched st st' :
  run sched st = Some st' →
  contention st' + 2 * failures sched ≤ contention st.
Proof.
  revert st. induction sched as [|e sched IH]; intros st; cbn [run].
  - intros [= <-]. unfold failures. simpl. lia.
  - destruct (step st e) as [st1|] eqn:E; [|done]. cbn [mbind option_bind].
    intros Hrun. specialize (IH _ Hrun). apply step_contention in E.
    rewrite failures_cons. destruct (is_fail e); lia.
Qed.

Lemma contention_initial locals :
  contention (initial_state locals) =
  Z.of_nat (length locals) * (Z.of_nat (length locals) - 1).
Proof.
  unfold contention, unfinished. cbn [initial_state shared workers].
  assert (sum_over (lag (Atomics 0 INT_MIN []))
                   ((λ r, Worker r.1 r.2 AtFetchAdd) <$> locals) = 0) as ->.
  { induction locals as [|r locals IH]; [done|].
    rewrite fmap_cons. unfold sum_over in *. cbn [foldr]. rewrite IH. done. }
  assert (sum_over (λ w, if finished w then 0 else 1)
                   ((λ r, Worker r.1 r.2 AtFetchAdd) <$> locals)
          = Z.of_nat (length locals)) as ->.
  { induction locals as [|r locals IH]; [done|].
    rewrite fmap_cons. unfold sum_over in *. cbn [foldr length]. rewrite IH.
    unfold finished. cbn [at_pc]. lia. }
  lia.
Qed.

(** X15. Contention in the retry loop of [processSectionWithCAS]: along
    every run of [n] workers, stale loads included, at most [n (n - 1) / 2]
    executions of [compare_exchange_weak] fail because [atomicMax] no
    longer holds the expected value; spurious failures are not counted,
    they are unbounded. *)
Theorem failed_exchanges_bounded locals sched st :
  run sched (initial_state locals) = Some st →
  2 * failures sched ≤ Z.of_nat (length locals) * (Z.of_nat (length locals) - 1).
Proof.
  intros Hrun. pose proof (run_contention _ _ _ Hrun) as H.
  rewrite contention_initial in H. pose proof (contention_nonneg st). lia.
Qed.

Lemma failed_exchanges_bounded_witness :
  2 * failures [FetchAdd 0; FetchAdd 1; Load 0 INT_MIN; Load 1 INT_MIN;
                Exchange 0; Fail 1 5; Load 1 5; Exchange 1]
  ≤ Z.of_nat (length [(1, 5); (2, 25)])
    * (Z.of_nat (length [(1, 5); (2, 25)]) - 1).
Proof.
  apply (failed_exchanges_bounded [(1, 5); (2, 25)]
           [FetchAdd 0; FetchAdd 1; Load 0 INT_MIN; Load 1 INT_MIN;
            Exchange 0; Fail 1 5; Load 1 5; Exchange 1]
           (State (Atomics 3 25 [5; INT_MIN])
                  [Worker 1 5 Finished; Worker 2 25 Finished])).
  reflexivity.
Defined.

(** ** The lock-free reducer: the length of a run *)




